(** * RRT planner of pyroboplan: a shallow embedding of
      [src/pyroboplan/planning/rrt.py] and the properties of its
      specification.

    The planner is generic in the robot model: configurations, the scalar
    arithmetic on them, the collision checks, the distance and the path
    discretizer all come from other modules ([numpy], [core.utils],
    [planning.utils]).  They are collected in the record [Env]; every
    definition below is a function of an [Env], and the closing part of the
    file instantiates it with a one-joint robot on an integer grid to run
    the planner on concrete inputs. *)

From stdpp Require Import base numbers option list.
From Stdlib Require Floats.

(** ** The environment of the planner *)

Record Env := mkEnv {
  config : Type;                       (* joint configuration, a numpy array *)
  real : Type;                         (* Python floats *)
  r0 : real;                                                (* [0.0] *)
  radd : real -> real -> real;                              (* [a + b] *)
  rlt : real -> real -> bool;                               (* [a < b] *)
  vsub : config -> config -> config;                        (* [a - b] *)
  vadd : config -> config -> config;                        (* [a + b] *)
  vscale : real -> config -> config;                        (* [s * a] *)
  vnorm : config -> real;                          (* [np.linalg.norm] *)
  (* [a / s]: numpy answers with an array (NaN entries when [s] is zero)
     unless its error state is set to raise; [None] is the raised error. *)
  vdiv : config -> real -> option config;
  configuration_distance : config -> config -> real;
  check_collisions_at_state : config -> bool;
  check_collisions_along_path : list config -> bool;
  discretize_joint_space_path : config -> config -> real -> list config;
}.

(** ** Exceptions *)

Inductive error :=
  | DivisionError       (* the array division of [extend_or_connect] raised *)
  | NoSuchNode          (* attribute access on [None] or on a dangling node *)
  | OutOfFuel.          (* the model's bound on a [while] loop was reached *)

Inductive result (A : Type) :=
  | Ok (a : A)
  | Raise (e : error).
Arguments Ok {A} a.
Arguments Raise {A} e.

Definition bind {A B} (m : result A) (k : A -> result B) : result B :=
  match m with
  | Ok a => k a
  | Raise e => Raise e
  end.

Notation "x <- m ;; k" := (bind m (fun x => k))
  (at level 60, m at next level, right associativity).
Notation "' pat <- m ;; k" := (bind m (fun x => match x with pat => k end))
  (at level 60, pat pattern, m at next level, right associativity).

Definition of_option {A} (e : error) (o : option A) : result A :=
  match o with
  | Some a => Ok a
  | None => Raise e
  end.

Definition to_option {A} (m : result A) : option A :=
  match m with
  | Ok a => Some a
  | Raise _ => None
  end.

Section Planner.
Context {E : Env}.

Local Abbreviation config := (config E).
Local Abbreviation real := (real E).

(** ** Options ([RRTPlannerOptions]) *)

Record RRTPlannerOptions := mkOptions {
  max_angle_step : real;
  max_connection_dist : real;
  rrt_connect : bool;
  bidirectional_rrt : bool;
  rrt_star : bool;
  max_rewire_dist : real;
  max_planning_time : real;
  goal_biasing_probability : real;
}.

(** ** The graph ([planning/graph.py])

    A node object is identified by its position in the node store of the
    tree that owns it; [parent] is such a position.  Edges are identified
    by their two end points. *)

Record Node := mkNode {
  q : config;
  parent : option nat;
  cost : real;
}.

Record Edge := mkEdge {
  nodeA : nat;
  nodeB : nat;
  edge_cost : real;
}.

Record Graph := mkGraph {
  nodes : list Node;
  edges : list Edge;
}.

(** Modelled from the spec: [Graph()] of planning/graph.py, which is not
    among the sources; a fresh graph owns no node and no edge. *)
Definition empty_graph : Graph := mkGraph [] [].

Definition get_node (g : Graph) (i : nat) : result Node :=
  of_option NoSuchNode (nodes g !! i).

(** Modelled from the spec: [Graph.add_node] of planning/graph.py, which is
    not among the sources; the node joins the graph's nodes and keeps its
    identity, here the next free position. *)
Definition add_node (g : Graph) (n : Node) : Graph * nat :=
  (mkGraph (nodes g ++ [n]) (edges g), length (nodes g)).

(** Modelled from the spec: [Graph.add_edge] of planning/graph.py, which is
    not among the sources; an edge joins two nodes and its cost is the
    configuration distance between them. *)
Definition add_edge (g : Graph) (a b : nat) : result (Graph * Edge) :=
  na <- get_node g a ;;
  nb <- get_node g b ;;
  let e := mkEdge a b (configuration_distance E (q na) (q nb)) in
  Ok (mkGraph (nodes g) (edges g ++ [e]), e).

Definition same_edge (e1 e2 : Edge) : bool :=
  (nodeA e1 =? nodeA e2) && (nodeB e1 =? nodeB e2).

(** Modelled from the spec: [Graph.remove_edge] of planning/graph.py, which
    is not among the sources; removes that edge and keeps its end points. *)
Definition remove_edge (g : Graph) (e : Edge) : Graph :=
  mkGraph (nodes g) (filter (fun e' => same_edge e' e = false) (edges g)).

Fixpoint nearest_from (q_query : config) (l : list Node) (i best : nat)
    (min_dist : real) : nat :=
  match l with
  | [] => best
  | n :: l' =>
      let dist := configuration_distance E q_query (q n) in
      if rlt E dist min_dist
      then nearest_from q_query l' (S i) i dist
      else nearest_from q_query l' (S i) best min_dist
  end.

(** Modelled from the spec: [Graph.get_nearest_node] of planning/graph.py,
    which is not among the sources; a linear scan for the node that
    minimizes the distance to the query, the first one found winning ties;
    no node when the graph is empty. *)
Definition get_nearest_node (g : Graph) (q_query : config) : option nat :=
  match nodes g with
  | [] => None
  | n :: l =>
      Some (nearest_from q_query l 1 0 (configuration_distance E q_query (q n)))
  end.

(** Attribute assignments [node.parent = p] and [node.cost = c] on the node
    object stored at position [i]. *)
Definition set_parent (g : Graph) (i : nat) (p : option nat) : Graph :=
  mkGraph (alter (fun n => mkNode (q n) p (cost n)) i (nodes g)) (edges g).

Definition set_cost (g : Graph) (i : nat) (c : real) : Graph :=
  mkGraph (alter (fun n => mkNode (q n) (parent n) c) i (nodes g)) (edges g).

(** ** [RRTPlanner.extend_or_connect] *)

(** [path_in_collision o a b] : the path check of the collision oracle on
    the segment from [a] to [b], discretized at [max_angle_step]. *)
Definition path_in_collision (o : RRTPlannerOptions) (a b : config) : bool :=
  check_collisions_along_path E
    (discretize_joint_space_path E a b (max_angle_step o)).

(** One round of the [while not terminated] loop; the state is
    [(q_cur, q_out)] and the answer also says whether the loop is over. *)
Definition extend_round (self_options options : RRTPlannerOptions)
    (q_sample q_increment : config) (st : config * option config)
    : config * option config * bool :=
  let '(q_cur, q_out) := st in
  let '(q_extend, terminated) :=
    if rlt E (max_connection_dist options)
             (configuration_distance E q_cur q_sample)
    then (vadd E q_cur q_increment, false)
    else (q_sample, true) in
  let q_extend_in_collision := check_collisions_at_state E q_extend in
  let path_to_q_extend_in_collision :=
    path_in_collision self_options q_cur q_extend in
  let '(q_cur, q_out, terminated) :=
    if negb q_extend_in_collision && negb path_to_q_extend_in_collision
    then (q_extend, Some q_extend, terminated)
    else (q_cur, q_out, true) in
  let terminated := terminated || negb (rrt_connect options) in
  (q_cur, q_out, terminated).

Fixpoint extend_loop (fuel : nat) (self_options options : RRTPlannerOptions)
    (q_sample q_increment : config) (st : config * option config)
    : result (option config) :=
  match fuel with
  | 0 => Raise OutOfFuel
  | S fuel' =>
      let '(q_cur, q_out, terminated) :=
        extend_round self_options options q_sample q_increment st in
      if terminated then Ok q_out
      else extend_loop fuel' self_options options q_sample q_increment
             (q_cur, q_out)
  end.

Definition extend_or_connect (fuel : nat)
    (self_options : RRTPlannerOptions) (parent_node : Node)
    (q_sample : config) (options : RRTPlannerOptions)
    : result (option config) :=
  let q_diff := vsub E q_sample (q parent_node) in
  q_increment <-
    of_option DivisionError
      (vdiv E (vscale E (max_connection_dist options) q_diff)
              (vnorm E q_diff)) ;;
  extend_loop fuel self_options options q_sample q_increment
    (q parent_node, None).

(** ** [RRTPlanner.extract_path_from_trees] *)

(** The two [while not path_extracted] loops: follow parents from [cur],
    appending configurations to [path]. *)
Fixpoint walk_parents (fuel : nat) (tree : Graph) (cur_node : option nat)
    (path : list config) : result (list config) :=
  match fuel with
  | 0 => Raise OutOfFuel
  | S fuel' =>
      match cur_node with
      | None => Ok path
      | Some i =>
          n <- get_node tree i ;;
          walk_parents fuel' tree (parent n) (path ++ [q n])
      end
  end.

Definition extract_path_from_trees (start_tree goal_tree : Graph)
    (start_tree_final_node goal_tree_final_node : option nat)
    : result (list config) :=
  path <- walk_parents (S (length (nodes start_tree))) start_tree
            start_tree_final_node [] ;;
  let path := rev path in
  walk_parents (S (length (nodes goal_tree))) goal_tree
    goal_tree_final_node path.

(** ** [RRTPlanner.add_node_to_tree] *)

(** The body of [for other_node in tree.nodes]; the state is the tree, the
    edge currently joining the new node to its parent, and [min_cost]. *)
Definition rewire_step (options : RRTPlannerOptions) (q_new : config)
    (new_node parent_node : nat) (st : Graph * Edge * real)
    (other_node : nat) : result (Graph * Edge * real) :=
  let '(tree, edge, min_cost) := st in
  if (other_node =? new_node) || (other_node =? parent_node) then Ok st
  else
    other <- get_node tree other_node ;;
    let new_distance := configuration_distance E (q other) q_new in
    if rlt E (max_rewire_dist options) new_distance then Ok st
    else
      let new_cost := radd E (cost other) new_distance in
      if rlt E new_cost min_cost then
        if negb (path_in_collision options q_new (q other)) then
          let tree := set_parent tree new_node (Some other_node) in
          let tree := set_cost tree new_node new_cost in
          let tree := remove_edge tree edge in
          '(tree, edge) <- add_edge tree other_node new_node ;;
          Ok (tree, edge, new_cost)
        else Ok st
      else Ok st.

Fixpoint rewire_loop (options : RRTPlannerOptions) (q_new : config)
    (new_node parent_node : nat) (others : list nat)
    (st : Graph * Edge * real) : result (Graph * Edge * real) :=
  match others with
  | [] => Ok st
  | other_node :: rest =>
      st' <- rewire_step options q_new new_node parent_node st other_node ;;
      rewire_loop options q_new new_node parent_node rest st'
  end.

(** The order in which [for other_node in tree.nodes] visits the nodes:
    here the order of insertion. *)
Definition iteration_order (tree : Graph) : list nat :=
  seq 0 (length (nodes tree)).

(** The first four statements: create the node, add it and its edge, set
    its cost. *)
Definition insert_node (tree : Graph) (q_new : config) (parent_node : nat)
    : result (Graph * nat * Edge) :=
  parent <- get_node tree parent_node ;;
  let '(tree, new_node) :=
    add_node tree (mkNode q_new (Some parent_node) (r0 E)) in
  '(tree, edge) <- add_edge tree parent_node new_node ;;
  let tree := set_cost tree new_node (radd E (cost parent) (edge_cost edge)) in
  Ok (tree, new_node, edge).

Definition add_node_to_tree (tree : Graph) (q_new : config)
    (parent_node : nat) (options : RRTPlannerOptions)
    : result (Graph * nat) :=
  '(tree, new_node, edge) <- insert_node tree q_new parent_node ;;
  if rrt_star options then
    new <- get_node tree new_node ;;
    let min_cost := cost new in
    '(tree, _, _) <-
      rewire_loop options q_new new_node parent_node (iteration_order tree)
        (tree, edge, min_cost) ;;
    Ok (tree, new_node)
  else Ok (tree, new_node).

(** ** [RRTPlanner.plan] *)

(** The session: the attributes of an [RRTPlanner] object. *)
Record RRTPlanner := mkPlanner {
  latest_path : option (list config);
  start_tree : Graph;
  goal_tree : Graph;
  options : option RRTPlannerOptions;
}.

Definition reset (self : RRTPlanner) : RRTPlanner :=
  mkPlanner None empty_graph empty_graph (options self).

(** What the world answers during one round of the planning loop: the
    clock reading [time.time() - t_start], the number drawn by
    [np.random.random()] and the state drawn by [get_random_state]. *)
Record draw := mkDraw {
  elapsed : real;
  random_number : real;
  random_state : config;
}.

(** The local variables of [plan] that the loop changes. *)
Record locals := mkLocals {
  l_start_tree : Graph;
  l_goal_tree : Graph;
  goal_found : bool;
  latest_start_tree_node : nat;
  latest_goal_tree_node : nat;
  start_tree_phase : bool;
}.

(** The sample and the extension of one round. *)
Definition round_sample (q_start q_goal : config)
    (options : RRTPlannerOptions) (d : draw) (start_tree_phase : bool)
    : config :=
  if rlt E (random_number d) (goal_biasing_probability options)
  then (if start_tree_phase then q_goal else q_start)
  else random_state d.

Definition round_extension (fuel : nat) (q_start q_goal : config)
    (options : RRTPlannerOptions) (d : draw) (l : locals)
    : result (nat * option config) :=
  let tree := if start_tree_phase l then l_start_tree l else l_goal_tree l in
  let q_sample := round_sample q_start q_goal options d (start_tree_phase l) in
  nearest_node <- of_option NoSuchNode (get_nearest_node tree q_sample) ;;
  nearest <- get_node tree nearest_node ;;
  q_new <- extend_or_connect fuel options nearest q_sample options ;;
  Ok (nearest_node, q_new).

(** The body of [while not goal_found] after the timeout check. *)
Definition plan_round (fuel : nat) (q_start q_goal : config)
    (options : RRTPlannerOptions) (d : draw) (l : locals) : result locals :=
  let phase := start_tree_phase l in
  let tree := if phase then l_start_tree l else l_goal_tree l in
  let other_tree := if phase then l_goal_tree l else l_start_tree l in
  '(nearest_node, q_new) <- round_extension fuel q_start q_goal options d l ;;
  match q_new with
  | None => Ok l
  | Some q_new =>
      '(tree, new_node) <- add_node_to_tree tree q_new nearest_node options ;;
      let latest_start := if phase then new_node else latest_start_tree_node l in
      let latest_goal := if phase then latest_goal_tree_node l else new_node in
      new <- get_node tree new_node ;;
      nearest_node_in_other_tree <-
        of_option NoSuchNode (get_nearest_node other_tree (q new)) ;;
      nearest_other <- get_node other_tree nearest_node_in_other_tree ;;
      '(tree, latest_start, latest_goal, found) <-
        (if negb (path_in_collision options (q new) (q nearest_other)) then
           '(tree, new_node) <-
             add_node_to_tree tree (q nearest_other) new_node options ;;
           if phase
           then Ok (tree, new_node, nearest_node_in_other_tree, true)
           else Ok (tree, nearest_node_in_other_tree, new_node, true)
         else Ok (tree, latest_start, latest_goal, goal_found l)) ;;
      let phase' := if bidirectional_rrt options then negb phase else phase in
      Ok (mkLocals (if phase then tree else l_start_tree l)
                   (if phase then l_goal_tree l else tree)
                   found latest_start latest_goal phase')
  end.

(** The loop itself.  Each round consumes one [draw]; a run that needs more
    rounds than there are draws is not determined by them. *)
Fixpoint plan_loop (fuel : nat) (q_start q_goal : config)
    (options : RRTPlannerOptions) (draws : list draw) (l : locals)
    : result locals :=
  if goal_found l then Ok l
  else
    match draws with
    | [] => Raise OutOfFuel
    | d :: draws' =>
        if rlt E (max_planning_time options) (elapsed d) then Ok l
        else
          l' <- plan_round fuel q_start q_goal options d l ;;
          plan_loop fuel q_start q_goal options draws' l'
    end.

Definition root (q0 : config) : Node := mkNode q0 None (r0 E).

Definition plan (self : RRTPlanner) (fuel : nat) (draws : list draw)
    (q_start q_goal : config) (opts : RRTPlannerOptions)
    : result (option (list config) * RRTPlanner) :=
  let self := reset self in
  let self := mkPlanner (latest_path self) (start_tree self) (goal_tree self)
                (Some opts) in
  let '(start_tree, start_node) := add_node (start_tree self) (root q_start) in
  let '(goal_tree, goal_node) := add_node (goal_tree self) (root q_goal) in
  let self := mkPlanner (latest_path self) start_tree goal_tree (options self) in
  if check_collisions_at_state E q_start then Ok (None, self)
  else if check_collisions_at_state E q_goal then Ok (None, self)
  else
    let found := negb (path_in_collision opts q_start q_goal) in
    l <- plan_loop fuel q_start q_goal opts draws
           (mkLocals start_tree goal_tree found start_node goal_node true) ;;
    let self := mkPlanner (Some []) (l_start_tree l) (l_goal_tree l)
                  (options self) in
    if goal_found l then
      path <- extract_path_from_trees (l_start_tree l) (l_goal_tree l)
                (Some (latest_start_tree_node l))
                (Some (latest_goal_tree_node l)) ;;
      Ok (Some path,
          mkPlanner (Some path) (l_start_tree l) (l_goal_tree l) (options self))
    else Ok (Some [], self).

(** What [plan] returns, without the session. *)
Definition answer (r : result (option (list config) * RRTPlanner))
    : result (option (list config)) :=
  match r with
  | Ok (path, _) => Ok path
  | Raise e => Raise e
  end.

(** ** Notions used to state the properties *)

(** *** Extension *)

(** The configuration proposed from [q_cur]: one increment further while
    the sample is more than [max_connection_dist] away, else the sample. *)
Definition far_from (options : RRTPlannerOptions) (q_cur q_sample : config)
    : bool :=
  rlt E (max_connection_dist options)
        (configuration_distance E q_cur q_sample).

Definition proposal (options : RRTPlannerOptions)
    (q_sample q_increment q_cur : config) : config :=
  if far_from options q_cur q_sample then vadd E q_cur q_increment
  else q_sample.

(** A proposed step is validated when its end is collision-free and the
    discretized segment to it is. *)
Definition validated (self_options : RRTPlannerOptions) (a b : config)
    : bool :=
  negb (check_collisions_at_state E b) && negb (path_in_collision self_options a b).

(** Greedy repeated extension (CONNECT), as a relation between the
    current configuration, the best configuration so far and the result:
    advance by one increment as long as the proposal is validated, stop at
    the first proposal that is not, or once the sample itself is accepted. *)
Inductive connect_result (self_options options : RRTPlannerOptions)
    (q_sample q_increment : config)
    : config -> option config -> option config -> Prop :=
  | connect_blocked q_cur q_out :
      validated self_options q_cur
        (proposal options q_sample q_increment q_cur) = false ->
      connect_result self_options options q_sample q_increment
        q_cur q_out q_out
  | connect_reached q_cur q_out :
      far_from options q_cur q_sample = false ->
      validated self_options q_cur q_sample = true ->
      connect_result self_options options q_sample q_increment
        q_cur q_out (Some q_sample)
  | connect_advance q_cur q_out res :
      far_from options q_cur q_sample = true ->
      validated self_options q_cur (vadd E q_cur q_increment) = true ->
      connect_result self_options options q_sample q_increment
        (vadd E q_cur q_increment) (Some (vadd E q_cur q_increment)) res ->
      connect_result self_options options q_sample q_increment
        q_cur q_out res.

(** *** Rewiring *)

(** What one round of the rewiring loop decides, read off the code: the
    new edge of the new node and its new cost, or nothing. [old] are the
    nodes the tree had before the insertion. *)
Definition rewire_choice (options : RRTPlannerOptions) (old : list Node)
    (q_new : config) (new_node parent_node : nat) (min_cost : real)
    (other_node : nat) : option (Edge * real) :=
  if (other_node =? new_node) || (other_node =? parent_node) then None
  else
    match old !! other_node with
    | None => None
    | Some other =>
        let new_distance := configuration_distance E (q other) q_new in
        if rlt E (max_rewire_dist options) new_distance then None
        else
          let new_cost := radd E (cost other) new_distance in
          if rlt E new_cost min_cost
             && negb (path_in_collision options q_new (q other))
          then Some (mkEdge other_node new_node new_distance, new_cost)
          else None
    end.

(** The loop body as a function of the edge list, the new node's edge and
    its cost; the new node's parent is the first end of its edge. *)
Definition rewire_pure (options : RRTPlannerOptions) (old : list Node)
    (q_new : config) (new_node parent_node : nat)
    (st : list Edge * Edge * real) (other_node : nat)
    : list Edge * Edge * real :=
  let '(es, e, min_cost) := st in
  match rewire_choice options old q_new new_node parent_node min_cost
          other_node with
  | Some (e', c') => (filter (fun x => same_edge x e = false) es ++ [e'], e', c')
  | None => st
  end.

(** The tree in which the new node hangs by the edge [e] at cost [c]. *)
Definition rewired (old : list Node) (q_new : config)
    (st : list Edge * Edge * real) : Graph * Edge * real :=
  let '(es, e, c) := st in
  (mkGraph (old ++ [mkNode q_new (Some (nodeA e)) c]) es, e, c).

(** The state in which [add_node_to_tree] leaves the edge list, the new
    node's edge and its cost. *)
Definition inserted (options : RRTPlannerOptions) (tree : Graph)
    (q_new : config) (p : nat) (pn : Node)
    : list Edge * Edge * real :=
  let e := mkEdge p (length (nodes tree))
             (configuration_distance E (q pn) q_new) in
  let st0 := (edges tree ++ [e], e, radd E (cost pn) (edge_cost e)) in
  if rrt_star options
  then fold_left
         (rewire_pure options (nodes tree) q_new (length (nodes tree)) p)
         (seq 0 (S (length (nodes tree)))) st0
  else st0.

(** The new node hangs well: its edge [e] starts at an old node and ends at
    the new one, the edge's cost is the distance between the two, [c] is
    the cost through that edge, and unless the old node is the parent
    chosen at insertion, the segment from the new node to it was found
    collision-free. *)
Definition attached (options : RRTPlannerOptions) (old : list Node)
    (q_new : config) (new_node parent_node : nat)
    (st : list Edge * Edge * real) : Prop :=
  nodeB (snd (fst st)) = new_node /\
  exists other,
    old !! nodeA (snd (fst st)) = Some other /\
    edge_cost (snd (fst st)) = configuration_distance E (q other) q_new /\
    snd st = radd E (cost other) (edge_cost (snd (fst st))) /\
    (nodeA (snd (fst st)) = parent_node \/
     path_in_collision options q_new (q other) = false).

(** The parent of the new node is the one chosen at insertion, at the cost
    of insertion, or a node met since, at a lower cost. *)
Definition improved (p0 : nat) (c0 : real) (rest : list nat)
    (st : list Edge * Edge * real) : Prop :=
  (nodeA (snd (fst st)) = p0 /\ snd st = c0) \/
  (rlt E (snd st) c0 = true /\ nodeA (snd (fst st)) <> p0 /\
   nodeA (snd (fst st)) ∉ rest).

(** The rewiring as the specification words it.  A candidate is any node
    of the tree other than the new node and the new node's current parent,
    and no farther than [max_rewire_dist]; it becomes the parent when
    [candidate.cost + distance(candidate, new)] is strictly below the new
    node's current cost and the segment is collision-free; the next
    candidates meet the updated parent and cost. *)
Definition rewire_candidate_spec (options : RRTPlannerOptions)
    (old : list Node) (q_new : config) (new_node : nat)
    (current : nat * real) (candidate : nat) : nat * real :=
  let '(current_parent, current_cost) := current in
  if (candidate =? new_node) || (candidate =? current_parent) then current
  else
    match old !! candidate with
    | None => current
    | Some c =>
        let d := configuration_distance E (q c) q_new in
        if rlt E (max_rewire_dist options) d then current
        else if rlt E (radd E (cost c) d) current_cost
                && negb (path_in_collision options q_new (q c))
        then (candidate, radd E (cost c) d)
        else current
    end.

Definition rewire_spec (options : RRTPlannerOptions) (old : list Node)
    (q_new : config) (new_node : nat) (candidates : list nat)
    (current : nat * real) : nat * real :=
  fold_left (rewire_candidate_spec options old q_new new_node) candidates
    current.

(** *** Costs *)

(** The sum of the edge costs from the root down to node [i], following
    parents; undefined when the walk leaves the store or needs more than
    [fuel] nodes.  A root has the empty sum. *)
Fixpoint path_cost (fuel : nat) (ns : list Node) (i : nat) : option real :=
  match fuel with
  | 0 => None
  | S fuel' =>
      match ns !! i with
      | None => None
      | Some n =>
          match parent n with
          | None => Some (r0 E)
          | Some p =>
              match ns !! p, path_cost fuel' ns p with
              | Some pn, Some c =>
                  Some (radd E c (configuration_distance E (q pn) (q n)))
              | _, _ => None
              end
          end
      end
  end.

(** Every node's stored cost is the cost of its path to the root. *)
Definition cost_consistent (g : Graph) : Prop :=
  forall i n, nodes g !! i = Some n ->
    exists fuel, path_cost fuel (nodes g) i = Some (cost n).

(** *** Validated trees and paths *)

Definition segment_free (o : RRTPlannerOptions) (a b : config) : Prop :=
  path_in_collision o a b = false.

(** Every node is collision-free, every parent is an older node of the same
    tree, and the segment from the parent to the node is collision-free. *)
Definition tree_valid (o : RRTPlannerOptions) (g : Graph) : Prop :=
  forall i n, nodes g !! i = Some n ->
    check_collisions_at_state E (q n) = false /\
    match parent n with
    | None => True
    | Some p =>
        exists pn, p < i /\ nodes g !! p = Some pn /\
                   segment_free o (q pn) (q n)
    end.

(** Every two consecutive configurations of a path are joined by a
    collision-free discretized segment. *)
Fixpoint pairs_free (o : RRTPlannerOptions) (path : list config) : Prop :=
  match path with
  | a :: (b :: _) as rest => segment_free o a b /\ pairs_free o rest
  | _ => True
  end.

(** The configurations met from a node up to the root of its tree. *)
Inductive chain_of (tree : Graph) : option nat -> list config -> Prop :=
  | chain_nil : chain_of tree None []
  | chain_cons i n rest :
      nodes tree !! i = Some n ->
      chain_of tree (parent n) rest ->
      chain_of tree (Some i) (q n :: rest).

(** All edges join nodes of the graph. *)
Definition edges_closed (g : Graph) : Prop :=
  Forall (fun e => nodeA e < length (nodes g) /\ nodeB e < length (nodes g))
         (edges g).

(** ** The path shown by [RRTPlanner.visualize]

    With [show_path], [visualize] joins the discretized segments between
    consecutive waypoints of [latest_path] (lines 350-357) and hands the
    result to the visualizer, which is outside the planner.  [ShowRaises]
    is the exception of [len(None)] when there is no [latest_path], or of
    [self.options] when no options were ever stored. *)
Inductive shown :=
  | Shown (q_path : list config)
  | ShowRaises.

Fixpoint discretized_path (o : RRTPlannerOptions) (path : list config)
    : list config :=
  match path with
  | q_start :: (q_goal :: _) as rest =>
      discretize_joint_space_path E q_start q_goal (max_angle_step o)
        ++ discretized_path o rest
  | _ => []
  end.

Definition visualize_q_path (self : RRTPlanner) : shown :=
  match latest_path self with
  | None => ShowRaises
  | Some (q0 :: q1 :: rest) =>
      match options self with
      | Some o => Shown (discretized_path o (q0 :: q1 :: rest))
      | None => ShowRaises
      end
  | Some _ => Shown []
  end.

(** ** Notions used for the planning loop as a whole *)

(** A tree grown from [root_q]: the root is the first node, every other
    node hangs from an older one by an edge of the graph, every edge of the
    graph is such an edge and costs the distance between its ends, there is
    one edge less than there are nodes, and the costs are consistent. *)
Definition tree_shaped (root_q : config) (g : Graph) : Prop :=
  nodes g !! 0 = Some (root root_q) /\
  (forall i n, nodes g !! i = Some n ->
     match parent n with
     | None => i = 0
     | Some p =>
         p < i /\
         exists pn, nodes g !! p = Some pn /\
           mkEdge p i (configuration_distance E (q pn) (q n)) ∈ edges g
     end) /\
  (forall e, e ∈ edges g ->
     exists n pn,
       nodes g !! nodeB e = Some n /\ parent n = Some (nodeA e) /\
       nodes g !! nodeA e = Some pn /\
       edge_cost e = configuration_distance E (q pn) (q n)) /\
  length (edges g) + 1 = length (nodes g) /\
  cost_consistent g.

(** No node of the tree is in collision. *)
Definition all_free (g : Graph) : Prop :=
  forall i n, nodes g !! i = Some n ->
    check_collisions_at_state E (q n) = false.

(** What the planning loop keeps true of its local variables. *)
Definition locals_ok (q_start q_goal : config) (l : locals) : Prop :=
  tree_shaped q_start (l_start_tree l) /\
  tree_shaped q_goal (l_goal_tree l) /\
  all_free (l_start_tree l) /\ all_free (l_goal_tree l) /\
  latest_start_tree_node l < length (nodes (l_start_tree l)) /\
  latest_goal_tree_node l < length (nodes (l_goal_tree l)).

(** The cost of the new node if it hung from [other]. *)
Definition cost_through (other : Node) (q_new : config) : real :=
  radd E (cost other) (configuration_distance E (q other) q_new).

End Planner.

(** ** A one-joint robot on an integer grid

    Configurations and scalars are integers (say, milliradians), so the
    arithmetic is exact: the distance is the absolute difference, and the
    increment [d * diff / |diff|] is [d] or [-d].  The obstacles are a list
    of configurations in collision; a path is in collision when one of its
    points is.  The discretizer follows numpy's [linspace] over
    [ceil(|diff| / step) + 1] points.  The division answers at a zero
    divisor, as numpy's does (there with NaN entries; the grid has no NaN
    and answers 0). *)
Module Grid.

Definition in_collision (obstacles : list Z) (c : Z) : bool :=
  existsb (Z.eqb c) obstacles.

Definition discretize (a b step : Z) : list Z :=
  let diff := (b - a)%Z in
  let num_steps := (Z.to_nat ((Z.abs diff + step - 1) / step) + 1)%nat in
  map (fun k => (a + Z.of_nat k * diff / (Z.of_nat num_steps - 1))%Z)
      (seq 0 num_steps).

Definition divide (a s : Z) : option Z :=
  if (s =? 0)%Z then Some 0%Z else Some (a / s)%Z.

Definition env (obstacles : list Z) : Env := {|
  config := Z;
  real := Z;
  r0 := 0%Z;
  radd := Z.add;
  rlt := Z.ltb;
  vsub := Z.sub;
  vadd := Z.add;
  vscale := Z.mul;
  vnorm := Z.abs;
  vdiv := divide;
  configuration_distance := fun a b => Z.abs (b - a);
  check_collisions_at_state := in_collision obstacles;
  check_collisions_along_path := existsb (in_collision obstacles);
  discretize_joint_space_path := discretize;
|}.

(** Steps of 15 for collision checking and of 20 for connecting, no limit
    on rewiring in practice, a deadline of 10 and no goal biasing. *)
Definition opts (obstacles : list Z)
    (connect bidirectional star : bool)
    : @RRTPlannerOptions (env obstacles) :=
  mkOptions (E := env obstacles) 15%Z 20%Z connect bidirectional star
    1000000%Z 10%Z 0%Z.

Definition fresh (obstacles : list Z)
    : @RRTPlanner (env obstacles) :=
  mkPlanner (E := env obstacles) None empty_graph empty_graph None.


(** The initial local variables of [plan], once the roots are in. *)
Definition initial (obstacles : list Z) (q_start q_goal : Z)
    : @locals (env obstacles) :=
  mkLocals (E := env obstacles)
    (mkGraph [root (E := env obstacles) q_start] [])
    (mkGraph [root (E := env obstacles) q_goal] []) false 0 0 true.

(** A round in time in which no goal biasing happens and [get_random_state]
    answers [c]. *)
Definition draws_state (obstacles : list Z) (c : Z)
    : @draw (env obstacles) :=
  mkDraw (E := env obstacles) 0%Z 1%Z c.

(** A tree with a detour: the root at 0, a node at 100 below it and a node
    at 20 below that one, at cost 180. *)
Definition detour : @Graph (env []) :=
  mkGraph (E := env [])
    [mkNode (E := env []) 0%Z None 0%Z;
     mkNode (E := env []) 100%Z (Some 0) 100%Z;
     mkNode (E := env []) 20%Z (Some 1) 180%Z]
    [mkEdge (E := env []) 0 1 100%Z;
     mkEdge (E := env []) 1 2 80%Z].

(** The same tree after a node at 30 was inserted below the node at 20 and
    rewired to the root. *)
Definition detour_rewired : @Graph (env []) :=
  mkGraph (E := env [])
    (nodes detour ++ [mkNode (E := env []) 30%Z (Some 0) 30%Z])
    (edges detour ++ [mkEdge (E := env []) 0 3 30%Z]).


(** A run in which the goal tree bridges to the start tree: obstacles at 15
    and 32, from 0 to 45, growing both trees, with random states 50 and
    then 0.  After the first round the start tree has grown by the node 20;
    in the second the goal tree grows by the node 25 and bridges to 20. *)
Definition both_ways : Env := env [15; 32]%Z.

Definition both_ways_opts : @RRTPlannerOptions both_ways :=
  opts [15; 32]%Z false true false.

Definition both_ways_draws : list (@draw both_ways) :=
  [draws_state [15; 32]%Z 50%Z; draws_state [15; 32]%Z 0%Z].

Definition grown_start_tree : @Graph both_ways :=
  mkGraph (E := both_ways)
    [mkNode (E := both_ways) 0%Z None 0%Z;
     mkNode (E := both_ways) 20%Z (Some 0) 20%Z]
    [mkEdge (E := both_ways) 0 1 20%Z].

Definition grown : @locals both_ways :=
  mkLocals (E := both_ways) grown_start_tree
    (mkGraph [root (E := both_ways) 45%Z] []) false 1 0 false.

Definition both_ways_session : @RRTPlanner both_ways :=
  mkPlanner (E := both_ways) (Some [0; 20; 20; 25; 45]%Z)
    grown_start_tree
    (mkGraph (E := both_ways)
       [mkNode (E := both_ways) 45%Z None 0%Z;
        mkNode (E := both_ways) 25%Z (Some 0) 20%Z;
        mkNode (E := both_ways) 20%Z (Some 1) 25%Z]
       [mkEdge (E := both_ways) 0 1 20%Z;
        mkEdge (E := both_ways) 1 2 5%Z])
    (Some both_ways_opts).

(** A run that grows the start tree only: the obstacle at 15, from 0 to 30,
    one step at a time, with the random state 30.  The start tree grows by
    the node 20 and bridges to the goal. *)
Definition one_way : Env := env [15%Z].

Definition one_way_opts : @RRTPlannerOptions one_way :=
  opts [15%Z] false false false.

Definition one_way_session : @RRTPlanner one_way :=
  mkPlanner (E := one_way) (Some [0; 20; 30; 30]%Z)
    (mkGraph (E := one_way)
       [mkNode (E := one_way) 0%Z None 0%Z;
        mkNode (E := one_way) 20%Z (Some 0) 20%Z;
        mkNode (E := one_way) 30%Z (Some 1) 30%Z]
       [mkEdge (E := one_way) 0 1 20%Z;
        mkEdge (E := one_way) 1 2 10%Z])
    (mkGraph [root (E := one_way) 30%Z] [])
    (Some one_way_opts).

(** A round that starts after the deadline of 10. *)
Definition late (obstacles : list Z)
    : @draw (env obstacles) :=
  mkDraw (E := env obstacles) 11%Z 1%Z 0%Z.

(** Options with [rrt_star] and a rewiring radius of 5. *)
Definition short_reach : @RRTPlannerOptions (env []) :=
  mkOptions (E := env []) 15%Z 20%Z false false true 5%Z 10%Z 0%Z.

End Grid.

(** ** A one-joint robot in double precision

    Configurations and scalars are IEEE 754 binary64 numbers, those of
    Python's floats and of numpy's [float64], and the arithmetic is theirs,
    rounding included; in particular the division always answers, with NaN
    for [0 / 0].  The distance is the norm of the difference.  The world
    has no obstacle.  The discretizer is the one of the grid, over numpy's
    [linspace(0, 1, num_steps)] with [num_steps = ceil(|diff| / step) + 1]:
    the points [a + t * diff]. *)
Module Doubles.
Import PrimFloat.

Fixpoint of_nat (n : nat) : float :=
  match n with
  | 0 => zero
  | S m => add (of_nat m) one
  end.

(** The least integer from [k] on that is not below [x]. *)
Fixpoint ceiling (fuel k : nat) (x : float) : nat :=
  if leb x (of_nat k) then k
  else
    match fuel with
    | 0 => k
    | S fuel' => ceiling fuel' (S k) x
    end.

Definition linspace (num_steps : nat) : list float :=
  match num_steps with
  | 0 => []
  | 1 => [zero]
  | S m => map (fun k => mul (of_nat k) (div one (of_nat m))) (seq 0 m) ++ [one]
  end.

Definition discretize (a b step : float) : list float :=
  let diff := sub b a in
  let num_steps := ceiling 1000 0 (div (abs diff) step) + 1 in
  map (fun t => add a (mul t diff)) (linspace num_steps).

Definition env : Env := {|
  config := float;
  real := float;
  r0 := zero;
  radd := add;
  rlt := ltb;
  vsub := sub;
  vadd := add;
  vscale := mul;
  vnorm := abs;
  vdiv := fun a s => Some (div a s);
  configuration_distance := fun a b => abs (sub b a);
  check_collisions_at_state := fun _ => false;
  check_collisions_along_path := fun _ => false;
  discretize_joint_space_path := discretize;
|}.

Definition tenth : float := 0x1.999999999999ap-4%float.          (* 0.1 *)
Definition fifth : float := 0x1.999999999999ap-3%float.          (* 0.2 *)
Definition twentieth : float := 0x1.999999999999ap-5%float.      (* 0.05 *)
Definition fifth_up : float := 0x1.999999999999bp-3%float.
                                                  (* 0.20000000000000004 *)
Definition three_tenths_up : float := 0x1.3333333333334p-2%float.
                                                  (* 0.30000000000000004 *)

(** The default values of [RRTPlannerOptions]. *)
Definition defaults : @RRTPlannerOptions env :=
  mkOptions (E := env) twentieth fifth false false false infinity
    10%float zero.

(** The local variables of [plan] from 0.1 to 1.0, once the roots are in. *)
Definition initial : @locals env :=
  mkLocals (E := env)
    (mkGraph [root (E := env) tenth] [])
    (mkGraph [root (E := env) one] []) false 0 0 true.

(** A round in time, without goal biasing, whose random state is [c]. *)
Definition draws_state (c : float) : @draw env :=
  mkDraw (E := env) zero one c.

End Doubles.

(** * Properties *)

Lemma bind_Ok {A B} (m : result A) (k : A -> result B) (b : B) :
  bind m k = Ok b -> exists a, m = Ok a /\ k a = Ok b.
Proof. destruct m as [a|e]; simpl; [eauto | discriminate]. Qed.

Lemma of_option_Ok {A} (e : error) (o : option A) (a : A) :
  of_option e o = Ok a -> o = Some a.
Proof. destruct o; simpl; congruence. Qed.

Section Theory.
Context {E : Env}.

Local Abbreviation config := (config E).
Local Abbreviation real := (real E).
Implicit Types (o options self_options : @RRTPlannerOptions E).
Implicit Types (g tree : @Graph E) (n : @Node E) (e : @Edge E).

(** Unfolds one monadic step whose result is known to be [Ok]. *)
Ltac ok_step H a Ha := apply bind_Ok in H; destruct H as (a & Ha & H).

(** ** Endpoints in collision, and the direct connection *)

(** C1. When [q_start] or [q_goal] fails the single-configuration check of
    the collision oracle, [plan] gives up at once: it returns no path
    (Python's [None]; [latest_path] stays [None]) and each tree holds its
    root node only, with no edge. *)
Theorem plan_endpoint_in_collision (self : @RRTPlanner E) (fuel : nat)
    (draws : list draw) (q_start q_goal : config) opts :
  check_collisions_at_state E q_start = true \/
  check_collisions_at_state E q_goal = true ->
  plan self fuel draws q_start q_goal opts =
    Ok (None,
        mkPlanner None (mkGraph [root q_start] []) (mkGraph [root q_goal] [])
          (Some opts)).
Proof.
  intros H. unfold plan. simpl.
  destruct (check_collisions_at_state E q_start) eqn:Hs; [reflexivity|].
  destruct H as [H|H]; [discriminate|]. now rewrite H.
Qed.

(** C6. When [q_start] and [q_goal] are both collision-free and the
    discretized segment between them is, [plan] returns the path
    [q_start; q_goal] and no tree has grown beyond its root. *)
Theorem plan_direct_connection (self : @RRTPlanner E) (fuel : nat)
    (draws : list draw) (q_start q_goal : config) opts :
  check_collisions_at_state E q_start = false ->
  check_collisions_at_state E q_goal = false ->
  path_in_collision opts q_start q_goal = false ->
  exists path,
    plan self fuel draws q_start q_goal opts =
      Ok (Some path,
          mkPlanner (Some path) (mkGraph [root q_start] [])
            (mkGraph [root q_goal] []) (Some opts)) /\
    path = [q_start; q_goal] /\
    head path = Some q_start /\ last path = Some q_goal.
Proof.
  intros Hs Hg Hp. exists [q_start; q_goal]. split; [|auto].
  unfold plan. simpl. rewrite Hs, Hg, Hp. simpl.
  destruct fuel, draws; reflexivity.
Qed.

(** ** Extend or connect *)

Lemma extend_round_eq self_options options q_sample q_increment
    (q_cur : config) (q_out : option config) :
  extend_round self_options options q_sample q_increment (q_cur, q_out) =
    let q_extend := proposal options q_sample q_increment q_cur in
    if validated self_options q_cur q_extend
    then (q_extend, Some q_extend,
          negb (far_from options q_cur q_sample) || negb (rrt_connect options))
    else (q_cur, q_out, true).
Proof.
  unfold extend_round, proposal, validated, far_from.
  destruct (rlt E _ _); simpl;
    destruct (check_collisions_at_state E _); simpl;
    try destruct (path_in_collision _ _ _); simpl; reflexivity.
Qed.

(** A single round decides the result when the sample is near. *)
Lemma extend_loop_near fuel self_options options q_sample q_increment
    (q_cur : config) (q_out : option config) :
  far_from options q_cur q_sample = false ->
  extend_loop (S fuel) self_options options q_sample q_increment
    (q_cur, q_out) =
  Ok (if validated self_options q_cur q_sample then Some q_sample else q_out).
Proof.
  intros Hnear. cbn [extend_loop]. rewrite extend_round_eq. unfold proposal.
  rewrite Hnear. simpl. destruct (validated _ _ _); reflexivity.
Qed.

(** A sample no farther than [max_connection_dist] from the parent node:
    the call divides by the norm of the difference all the same; if that
    division raises, so does the call, and if it answers, the quotient is
    not used and the result is the sample when it is validated and nothing
    otherwise. *)
Lemma extend_or_connect_near_sample fuel self_options
    (parent_node : @Node E) (q_sample : config) options :
  far_from options (q parent_node) q_sample = false ->
  extend_or_connect (S fuel) self_options parent_node q_sample options =
    match vdiv E (vscale E (max_connection_dist options)
                    (vsub E q_sample (q parent_node)))
                 (vnorm E (vsub E q_sample (q parent_node))) with
    | None => Raise DivisionError
    | Some _ =>
        Ok (if validated self_options (q parent_node) q_sample
            then Some q_sample else None)
    end.
Proof.
  intros Hnear. unfold extend_or_connect.
  destruct (vdiv E _ _) as [inc|]; [|reflexivity].
  cbn [of_option bind]. now apply extend_loop_near.
Qed.

Lemma extend_loop_single fuel self_options options q_sample q_increment
    (q_cur : config) (q_out : option config) :
  rrt_connect options = false ->
  extend_loop (S fuel) self_options options q_sample q_increment
    (q_cur, q_out) =
  Ok (if validated self_options q_cur
           (proposal options q_sample q_increment q_cur)
      then Some (proposal options q_sample q_increment q_cur) else q_out).
Proof.
  intros Hc. cbn [extend_loop]. rewrite extend_round_eq. cbv zeta. rewrite Hc.
  rewrite orb_true_r. destruct (validated _ _ _); reflexivity.
Qed.

Lemma extend_loop_connect fuel self_options options q_sample q_increment
    (q_cur : config) (q_out res : option config) :
  rrt_connect options = true ->
  extend_loop fuel self_options options q_sample q_increment (q_cur, q_out)
    = Ok res ->
  connect_result self_options options q_sample q_increment q_cur q_out res.
Proof.
  intros Hc. revert q_cur q_out.
  induction fuel as [|fuel IH]; intros q_cur q_out H; [discriminate|].
  cbn [extend_loop] in H. rewrite extend_round_eq in H. cbv zeta in H.
  destruct (validated _ _ _) eqn:Hv.
  - rewrite Hc, orb_false_r in H. unfold proposal in *.
    destruct (far_from options q_cur q_sample) eqn:Hfar; simpl in H.
    + apply connect_advance; auto.
    + injection H as <-. now apply connect_reached.
  - injection H as <-. now apply connect_blocked.
Qed.

Lemma connect_result_run self_options options q_sample q_increment
    (q_cur : config) (q_out res : option config) :
  rrt_connect options = true ->
  connect_result self_options options q_sample q_increment q_cur q_out res ->
  exists rounds, forall fuel, rounds <= fuel ->
    extend_loop fuel self_options options q_sample q_increment (q_cur, q_out)
      = Ok res.
Proof.
  intros Hc H.
  induction H as [q_cur q_out Hv|q_cur q_out Hfar Hv
                 |q_cur q_out res Hfar Hv _ (rounds & IH)].
  - exists 1. intros [|fuel] ?; [lia|]. cbn [extend_loop]. rewrite extend_round_eq.
    cbv zeta. now rewrite Hv.
  - exists 1. intros [|fuel] ?; [lia|]. rewrite extend_loop_near by done.
    now rewrite Hv.
  - exists (S rounds). intros [|fuel] ?; [lia|]. cbn [extend_loop].
    rewrite extend_round_eq. unfold proposal. rewrite Hfar. cbv zeta.
    rewrite Hv, Hc. simpl. apply IH. lia.
Qed.

(** The greedy extension stops as soon as some iterate of the increment is
    near the sample (or earlier, at a proposal that is not validated). *)
Lemma connect_result_exists self_options options q_sample q_increment
    (k : nat) (q_cur : config) (q_out : option config) :
  far_from options (Nat.iter k (fun c => vadd E c q_increment) q_cur)
    q_sample = false ->
  exists res,
    connect_result self_options options q_sample q_increment q_cur q_out res.
Proof.
  revert q_cur q_out. induction k as [|k IH]; intros q_cur q_out Hk.
  - simpl in Hk.
    destruct (validated self_options q_cur q_sample) eqn:Hv.
    + eexists. now apply connect_reached.
    + exists q_out. apply connect_blocked. unfold proposal. now rewrite Hk.
  - destruct (far_from options q_cur q_sample) eqn:Hfar.
    + destruct (validated self_options q_cur (vadd E q_cur q_increment))
        eqn:Hv.
      * destruct (IH (vadd E q_cur q_increment)
                     (Some (vadd E q_cur q_increment))) as [res Hres].
        { now rewrite Nat.iter_succ_r in Hk. }
        exists res. now apply connect_advance.
      * exists q_out. apply connect_blocked. unfold proposal.
        now rewrite Hfar.
    + destruct (validated self_options q_cur q_sample) eqn:Hv.
      * eexists. now apply connect_reached.
      * exists q_out. apply connect_blocked. unfold proposal.
        now rewrite Hfar.
Qed.


(** ** Insertion and rewiring *)

Lemma alter_last {A} (f : A -> A) (l : list A) (x : A) :
  alter f (length l) (l ++ [x]) = l ++ [f x].
Proof.
  replace (length l) with (length l + 0) by lia. now rewrite alter_app_r.
Qed.

Lemma lookup_last {A} (l : list A) (x : A) : (l ++ [x]) !! length l = Some x.
Proof. now apply list_lookup_middle. Qed.

Lemma insert_node_eq tree (q_new : config) (p : nat) (pn : @Node E) :
  nodes tree !! p = Some pn ->
  insert_node tree q_new p =
    let e := mkEdge p (length (nodes tree))
               (configuration_distance E (q pn) q_new) in
    Ok (fst (fst (rewired (nodes tree) q_new
                    (edges tree ++ [e], e, radd E (cost pn) (edge_cost e)))),
        length (nodes tree), e).
Proof.
  intros Hp. unfold insert_node, get_node, add_node, add_edge, set_cost.
  rewrite Hp. cbn [of_option bind nodes edges]. unfold get_node.
  cbn [nodes]. rewrite (lookup_app_l_Some _ _ _ _ Hp), lookup_last.
  cbn [of_option bind nodes edges q parent cost edge_cost].
  now rewrite alter_last.
Qed.

Lemma insert_node_Ok tree (q_new : config) (p : nat) r :
  insert_node tree q_new p = Ok r -> exists pn, nodes tree !! p = Some pn.
Proof.
  unfold insert_node, get_node. intros H. ok_step H pn Hpn.
  apply of_option_Ok in Hpn. eauto.
Qed.

Lemma rewire_choice_Some options (old : list (@Node E)) (q_new : config)
    (new_node p0 : nat) (mc : real) (other : nat) e' c' :
  rewire_choice options old q_new new_node p0 mc other = Some (e', c') ->
  exists on,
    other <> new_node /\ other <> p0 /\ old !! other = Some on /\
    rlt E (max_rewire_dist options) (configuration_distance E (q on) q_new)
      = false /\
    rlt E c' mc = true /\
    path_in_collision options q_new (q on) = false /\
    e' = mkEdge other new_node (configuration_distance E (q on) q_new) /\
    c' = radd E (cost on) (configuration_distance E (q on) q_new).
Proof.
  unfold rewire_choice. intros H.
  destruct (other =? new_node) eqn:H1; [discriminate|].
  destruct (other =? p0) eqn:H2; [discriminate|]. cbn [orb] in H.
  destruct (old !! other) as [on|]; [|discriminate].
  destruct (rlt E (max_rewire_dist options) _) eqn:H3; [discriminate|].
  destruct (rlt E (radd E _ _) mc) eqn:H4; [|discriminate].
  destruct (path_in_collision _ _ _) eqn:H5; [discriminate|].
  cbn in H. injection H as <- <-. exists on.
  apply Nat.eqb_neq in H1, H2. repeat split; auto.
Qed.

Lemma rewire_step_eq options (old : list (@Node E)) (q_new : config)
    (p0 : nat) (st : list Edge * Edge * real) (other : nat) :
  other <= length old ->
  rewire_step options q_new (length old) p0 (rewired old q_new st) other =
    Ok (rewired old q_new
          (rewire_pure options old q_new (length old) p0 st other)).
Proof.
  intros Hle. destruct st as [[es e] mc].
  unfold rewire_step, rewire_pure, rewire_choice, rewired.
  destruct (other =? length old) eqn:H1; [reflexivity|].
  destruct (other =? p0) eqn:H2; [reflexivity|]. cbn [orb].
  apply Nat.eqb_neq in H1. assert (Hlt : other < length old) by lia.
  destruct (lookup_lt_is_Some_2 old other Hlt) as [on Hon].
  unfold get_node. cbn [nodes]. rewrite (lookup_app_l_Some _ _ _ _ Hon), Hon.
  cbn [of_option bind].
  destruct (rlt E (max_rewire_dist options) _); [reflexivity|].
  destruct (rlt E (radd E _ _) mc); [|reflexivity].
  destruct (path_in_collision _ _ _); [reflexivity|]. cbn [negb andb].
  unfold set_parent, set_cost, remove_edge, add_edge, get_node.
  cbn [nodes edges]. rewrite !alter_last.
  rewrite (lookup_app_l_Some _ _ _ _ Hon), lookup_last.
  reflexivity.
Qed.

Lemma rewire_loop_eq options (old : list (@Node E)) (q_new : config)
    (p0 : nat) (others : list nat) (st : list Edge * Edge * real) :
  Forall (fun i => i <= length old) others ->
  rewire_loop options q_new (length old) p0 others (rewired old q_new st) =
    Ok (rewired old q_new
          (fold_left (rewire_pure options old q_new (length old) p0)
             others st)).
Proof.
  intros Hall. revert st.
  induction Hall as [|other rest Hle _ IH]; intros st; [reflexivity|].
  cbn [rewire_loop fold_left]. rewrite rewire_step_eq by done.
  cbn [bind]. apply IH.
Qed.

Lemma add_node_to_tree_eq tree (q_new : config) (p : nat) options pn :
  nodes tree !! p = Some pn ->
  add_node_to_tree tree q_new p options =
    Ok (fst (fst (rewired (nodes tree) q_new
                    (inserted options tree q_new p pn))),
        length (nodes tree)).
Proof.
  intros Hp. unfold add_node_to_tree, inserted.
  rewrite (insert_node_eq _ _ _ _ Hp). cbv zeta. cbn [bind].
  cbn [rewired fst]. destruct (rrt_star options); [|reflexivity].
  unfold get_node. cbn [nodes]. rewrite lookup_last. cbn [of_option bind cost].
  unfold iteration_order. cbn [nodes]. rewrite length_app. cbn [length].
  rewrite Nat.add_1_r.
  pose proof (rewire_loop_eq options (nodes tree) q_new p
                (seq 0 (S (length (nodes tree))))) as Hloop.
  cbn [rewired] in Hloop. unfold rewired in Hloop at 1.
  rewrite (Hloop (_, _, _)).
  - cbn [bind]. destruct (fold_left _ _ _) as [[es e] c]. reflexivity.
  - apply Forall_forall. intros i Hi. apply elem_of_seq in Hi. lia.
Qed.

Lemma add_node_to_tree_Ok tree (q_new : config) (p : nat) options r :
  add_node_to_tree tree q_new p options = Ok r ->
  exists pn, nodes tree !! p = Some pn.
Proof.
  unfold add_node_to_tree. intros H. ok_step H r1 Hr1.
  now apply insert_node_Ok in Hr1.
Qed.

Lemma rewire_pure_attached options (old : list (@Node E)) (q_new : config)
    (p0 : nat) (st : list Edge * Edge * real) (other : nat) :
  attached options old q_new (length old) p0 st ->
  attached options old q_new (length old) p0
    (rewire_pure options old q_new (length old) p0 st other).
Proof.
  intros Hst. destruct st as [[es e] mc]. unfold rewire_pure.
  destruct (rewire_choice _ _ _ _ _ _ _) as [[e' c']|] eqn:Hch; [|exact Hst].
  apply rewire_choice_Some in Hch
    as (on & _ & _ & Hon & _ & _ & Hfree & -> & ->).
  split; [reflexivity|]. exists on. cbn. auto.
Qed.

Lemma fold_rewire_pure_attached options (old : list (@Node E))
    (q_new : config) (p0 : nat) (others : list nat)
    (st : list Edge * Edge * real) :
  attached options old q_new (length old) p0 st ->
  attached options old q_new (length old) p0
    (fold_left (rewire_pure options old q_new (length old) p0) others st).
Proof.
  revert st. induction others as [|other rest IH]; intros st Hst; [exact Hst|].
  cbn [fold_left]. apply IH. now apply rewire_pure_attached.
Qed.

Lemma inserted_attached options tree (q_new : config) (p : nat) pn :
  nodes tree !! p = Some pn ->
  attached options (nodes tree) q_new (length (nodes tree)) p
    (inserted options tree q_new p pn).
Proof.
  intros Hp. unfold inserted. cbv zeta.
  assert (attached options (nodes tree) q_new (length (nodes tree)) p
            (edges tree ++
               [mkEdge p (length (nodes tree))
                  (configuration_distance E (q pn) q_new)],
             mkEdge p (length (nodes tree))
               (configuration_distance E (q pn) q_new),
             radd E (cost pn) (configuration_distance E (q pn) q_new)))
    as H0.
  { split; [reflexivity|]. exists pn. cbn. auto. }
  destruct (rrt_star options); [|exact H0].
  now apply fold_rewire_pure_attached.
Qed.

(** The edges during rewiring: those of the old tree that do not end at the
    new node stay, and nothing is added but edges that end at it. *)
Lemma fold_rewire_pure_edges options (old : list (@Node E)) (q_new : config)
    (p0 : nat) (es0 : list (@Edge E)) (others : list nat)
    (st : list Edge * Edge * real) :
  nodeB (snd (fst st)) = length old ->
  (forall x, x ∈ es0 -> nodeB x <> length old -> x ∈ fst (fst st)) ->
  (forall x, x ∈ fst (fst st) -> x ∈ es0 \/ nodeB x = length old) ->
  let st' := fold_left (rewire_pure options old q_new (length old) p0)
               others st in
  (forall x, x ∈ es0 -> nodeB x <> length old -> x ∈ fst (fst st')) /\
  (forall x, x ∈ fst (fst st') -> x ∈ es0 \/ nodeB x = length old).
Proof.
  revert st. induction others as [|other rest IH]; intros st He Hin Hout;
    [now split|].
  cbn [fold_left]. apply IH; destruct st as [[es e] mc]; unfold rewire_pure;
    (destruct (rewire_choice _ _ _ _ _ _ _) as [[e' c']|] eqn:Hch;
     [apply rewire_choice_Some in Hch
        as (on & _ & _ & _ & _ & _ & _ & -> & ->)|assumption]);
    cbn [fst snd nodeB] in *.
  - reflexivity.
  - intros x Hx Hne. apply elem_of_app. left. apply list_elem_of_filter.
    split; [|auto]. unfold same_edge.
    destruct (nodeB x =? nodeB e) eqn:Hb; [|now rewrite andb_false_r].
    apply Nat.eqb_eq in Hb. congruence.
  - intros x Hx. apply elem_of_app in Hx as [Hx|Hx].
    + apply list_elem_of_filter in Hx as [_ Hx]. auto.
    + apply list_elem_of_singleton in Hx as ->. now right.
Qed.

(** C9. Whatever the options, [add_node_to_tree] gives the new node the
    next free position and leaves every node the tree already had as it
    was, parent and cost included; the edges that do not end at the new
    node stay, and no other edge appears. *)
Theorem add_node_to_tree_frame tree (q_new : config) (p : nat) options
    tree' (new_node : nat) :
  add_node_to_tree tree q_new p options = Ok (tree', new_node) ->
  new_node = length (nodes tree) /\
  (exists n', nodes tree' = nodes tree ++ [n'] /\ q n' = q_new) /\
  (forall i n, nodes tree !! i = Some n -> nodes tree' !! i = Some n) /\
  (forall i n, i <> new_node -> nodes tree' !! i = Some n ->
     nodes tree !! i = Some n) /\
  (forall x, x ∈ edges tree -> nodeB x <> new_node -> x ∈ edges tree') /\
  (forall x, x ∈ edges tree' -> x ∈ edges tree \/ nodeB x = new_node).
Proof.
  intros H. destruct (add_node_to_tree_Ok _ _ _ _ _ H) as [pn Hp].
  rewrite (add_node_to_tree_eq _ _ _ _ _ Hp) in H.
  pose proof (inserted_attached options tree q_new p pn Hp) as [HB _].
  assert (Hedges :
    (forall x, x ∈ edges tree -> nodeB x <> length (nodes tree) ->
       x ∈ fst (fst (inserted options tree q_new p pn))) /\
    (forall x, x ∈ fst (fst (inserted options tree q_new p pn)) ->
       x ∈ edges tree \/ nodeB x = length (nodes tree))).
  { unfold inserted. cbv zeta.
    set (e0 := mkEdge p (length (nodes tree))
                 (configuration_distance E (q pn) q_new)).
    assert ((forall x, x ∈ edges tree -> nodeB x <> length (nodes tree) ->
               x ∈ edges tree ++ [e0]) /\
            (forall x, x ∈ edges tree ++ [e0] ->
               x ∈ edges tree \/ nodeB x = length (nodes tree))) as [H1 H2].
    { split.
      - intros x Hx _. apply elem_of_app. now left.
      - intros x Hx. apply elem_of_app in Hx as [Hx|Hx]; [now left|].
        apply list_elem_of_singleton in Hx as ->. now right. }
    destruct (rrt_star options); [|now split].
    now apply fold_rewire_pure_edges. }
  destruct (inserted options tree q_new p pn) as [[es e] c].
  cbn [rewired fst snd] in *. injection H as <- <-. cbn [nodes edges].
  split; [reflexivity|]. split; [eexists; split; reflexivity|].
  split; [intros i n Hi; now apply lookup_app_l_Some|].
  split; [|exact Hedges].
  intros i n Hne Hi. apply lookup_app_Some in Hi as [Hi|[Hge Hi]]; [done|].
  apply list_lookup_singleton_Some in Hi as [Hi _]. lia.
Qed.

(** ** Costs *)

Lemma path_cost_app (fuel : nat) (ns l : list (@Node E)) (i : nat) c :
  path_cost fuel ns i = Some c -> path_cost fuel (ns ++ l) i = Some c.
Proof.
  revert i c. induction fuel as [|fuel IH]; intros i c H; [discriminate|].
  cbn [path_cost] in *.
  destruct (ns !! i) as [n|] eqn:Hi; [|discriminate].
  rewrite (lookup_app_l_Some _ _ _ _ Hi).
  destruct (parent n) as [p|]; [|exact H].
  destruct (ns !! p) as [pn|] eqn:Hp; [|discriminate].
  rewrite (lookup_app_l_Some _ _ _ _ Hp).
  destruct (path_cost fuel ns p) as [cp|] eqn:Hc; [|discriminate].
  now rewrite (IH _ _ Hc).
Qed.

Lemma rewired_cost_consistent options (old : list (@Node E)) es
    (q_new : config) (p0 : nat) (st : list Edge * Edge * real) :
  cost_consistent (mkGraph old es) ->
  attached options old q_new (length old) p0 st ->
  cost_consistent (fst (fst (rewired old q_new st))).
Proof.
  intros Hold (_ & on & Hon & Hd & Hc & _). destruct st as [[es' e] c].
  cbn [rewired fst snd nodes] in *. intros i n Hi. cbn [nodes] in *.
  apply lookup_app_Some in Hi as [Hi|[Hge Hi]].
  - destruct (Hold i n Hi) as [fuel Hfuel]. exists fuel.
    now apply path_cost_app.
  - apply list_lookup_singleton_Some in Hi as [Hi <-].
    assert (i = length old) as -> by lia.
    destruct (Hold _ _ Hon) as [fuel Hfuel]. exists (S fuel).
    cbn [path_cost]. rewrite lookup_last. cbn [parent q cost].
    rewrite (lookup_app_l_Some _ _ _ _ Hon).
    rewrite (path_cost_app _ _ _ _ _ Hfuel). now rewrite Hc, Hd.
Qed.

Lemma cost_consistent_nodes g es :
  cost_consistent g -> cost_consistent (mkGraph (nodes g) es).
Proof. intros H i n Hi. exact (H i n Hi). Qed.

Lemma cost_consistent_root (q0 : config) : cost_consistent (mkGraph [root q0] []).
Proof.
  intros i n Hi. cbn [nodes] in *.
  apply list_lookup_singleton_Some in Hi as [-> <-]. now exists 1.
Qed.

(** C4. A root has cost [0.0] and a tree made of its root is
    cost-consistent.  If every node of a tree stores the cost of its path to
    the root and [parent_node] is one of its nodes, then [add_node_to_tree]
    succeeds and the same holds of the tree once the node is inserted,
    after any number [k] of rounds of the rewiring loop, and of the tree
    returned, with or without [rrt_star]. *)
Theorem add_node_to_tree_cost_invariant tree (q_new : config)
    (parent_node : nat) options (pn : @Node E) :
  cost_consistent tree ->
  nodes tree !! parent_node = Some pn ->
  (forall q0 : config,
     cost (root q0) = r0 E /\ cost_consistent (mkGraph [root q0] [])) /\
  exists tree1 new_node e new tree',
    insert_node tree q_new parent_node = Ok (tree1, new_node, e) /\
    nodes tree1 !! new_node = Some new /\
    cost_consistent tree1 /\
    (forall k, exists st,
       rewire_loop options q_new new_node parent_node
         (take k (iteration_order tree1)) (tree1, e, cost new) = Ok st /\
       cost_consistent (fst (fst st))) /\
    add_node_to_tree tree q_new parent_node options = Ok (tree', new_node) /\
    cost_consistent tree'.
Proof.
  intros Hcons Hp. split.
  { intros q0. split; [reflexivity|apply cost_consistent_root]. }
  set (old := nodes tree).
  set (e0 := mkEdge parent_node (length old)
               (configuration_distance E (q pn) q_new)).
  set (st0 := (edges tree ++ [e0], e0, radd E (cost pn) (edge_cost e0))).
  assert (Hold : cost_consistent (mkGraph old (edges tree)))
    by now apply cost_consistent_nodes.
  assert (H0 : attached options old q_new (length old) parent_node st0).
  { split; [reflexivity|]. exists pn. cbn. auto. }
  exists (fst (fst (rewired old q_new st0))), (length old), e0,
    (mkNode q_new (Some parent_node) (radd E (cost pn) (edge_cost e0))),
    (fst (fst (rewired old q_new
                 (inserted options tree q_new parent_node pn)))).
  split; [now apply insert_node_eq|].
  split; [cbn [rewired fst nodes]; apply lookup_last|].
  split; [now apply (rewired_cost_consistent options old (edges tree) q_new
                       parent_node)|].
  split; [|split].
  - intros k.
    exists (rewired old q_new
              (fold_left (rewire_pure options old q_new (length old)
                            parent_node)
                 (take k (iteration_order (fst (fst (rewired old q_new st0)))))
                 st0)).
    split.
    + rewrite <- rewire_loop_eq; [reflexivity|].
      apply Forall_forall. intros i Hi.
      apply elem_of_take in Hi as (j & Hj & _).
      assert (i ∈ iteration_order (fst (fst (rewired old q_new st0)))) as Hi
        by (eapply list_elem_of_lookup_2; eauto).
      unfold iteration_order in Hi. apply elem_of_seq in Hi.
      unfold st0 in Hi. cbn [rewired fst nodes] in Hi.
      rewrite length_app in Hi. cbn in Hi. lia.
    + apply (rewired_cost_consistent options old (edges tree) q_new
               parent_node); [assumption|].
      now apply fold_rewire_pure_attached.
  - now apply add_node_to_tree_eq.
  - apply (rewired_cost_consistent options old (edges tree) q_new
             parent_node); [assumption|].
    now apply inserted_attached.
Qed.

(** ** The rewiring of the specification *)

Section Rewiring.
Hypothesis rlt_asym : forall a b : real, rlt E a b = true -> rlt E b a = false.
Hypothesis rlt_trans : forall a b c : real,
  rlt E a b = true -> rlt E b c = true -> rlt E a c = true.

Lemma rewire_pure_spec_step options (old : list (@Node E)) (q_new : config)
    (p0 : nat) (pn0 : @Node E) (st : list Edge * Edge * real)
    (other : nat) (rest : list nat) :
  old !! p0 = Some pn0 ->
  let c0 := radd E (cost pn0) (configuration_distance E (q pn0) q_new) in
  improved p0 c0 (other :: rest) st ->
  other ∉ rest ->
  let st' := rewire_pure options old q_new (length old) p0 st other in
  (nodeA (snd (fst st')), snd st') =
    rewire_candidate_spec options old q_new (length old)
      (nodeA (snd (fst st)), snd st) other /\
  improved p0 c0 rest st'.
Proof.
  intros Hp0 c0 Himp Hfresh. destruct st as [[es e] c].
  unfold improved in *. cbn [fst snd] in *.
  assert (Hweak : (nodeA e = p0 /\ c = c0) \/
                  (rlt E c c0 = true /\ nodeA e <> p0 /\ nodeA e ∉ rest)).
  { destruct Himp as [?|(? & ? & Hn)]; [now left|right].
    repeat split; auto. intros ?. apply Hn. now apply elem_of_cons; right. }
  unfold rewire_pure, rewire_choice, rewire_candidate_spec.
  destruct (other =? length old) eqn:Hnew; cbn [orb]; [now split|].
  destruct (other =? p0) eqn:Hpar; cbn [orb].
  - apply Nat.eqb_eq in Hpar as ->. split; [|exact Hweak]. cbn [fst snd].
    destruct Himp as [[-> _]|(Hlt & Hne & _)].
    + now rewrite Nat.eqb_refl.
    + destruct (p0 =? nodeA e) eqn:Hcur; [reflexivity|]. rewrite Hp0.
      destruct (rlt E (max_rewire_dist options) _); [reflexivity|].
      fold c0. now rewrite (rlt_asym _ _ Hlt).
  - assert (Hcur : (other =? nodeA e) = false).
    { apply Nat.eqb_neq. apply Nat.eqb_neq in Hpar.
      destruct Himp as [[-> _]|(_ & _ & Hn)]; [done|].
      intros ->. apply Hn. now apply elem_of_cons; left. }
    rewrite Hcur. destruct (old !! other) as [on|]; [|now split].
    destruct (rlt E (max_rewire_dist options) _); [now split|].
    destruct (rlt E (radd E _ _) c) eqn:Hlt; [|now split].
    destruct (path_in_collision _ _ _); cbn [andb negb]; [now split|].
    cbn [fst snd nodeA]. split; [reflexivity|]. right.
    apply Nat.eqb_neq in Hpar. repeat split; auto.
    destruct Hweak as [[_ ->]|(Hc & _ & _)]; [assumption|].
    now apply (rlt_trans _ _ _ Hlt).
Qed.

Lemma fold_rewire_pure_spec options (old : list (@Node E)) (q_new : config)
    (p0 : nat) (pn0 : @Node E) (others : list nat)
    (st : list Edge * Edge * real) :
  old !! p0 = Some pn0 ->
  NoDup others ->
  improved p0 (radd E (cost pn0) (configuration_distance E (q pn0) q_new))
    others st ->
  let st' := fold_left (rewire_pure options old q_new (length old) p0)
               others st in
  (nodeA (snd (fst st')), snd st') =
    rewire_spec options old q_new (length old) others
      (nodeA (snd (fst st)), snd st).
Proof.
  intros Hp0 Hnd. revert st.
  induction Hnd as [|other rest Hfresh _ IH]; intros st Himp; [reflexivity|].
  cbn [fold_left]. unfold rewire_spec. cbn [fold_left].
  destruct (rewire_pure_spec_step options old q_new p0 pn0 st other rest
              Hp0 Himp Hfresh) as [<- Himp'].
  now apply IH.
Qed.

Lemma rewire_pure_self options (old : list (@Node E)) (q_new : config)
    (new_node p0 : nat) (st : list Edge * Edge * real) :
  rewire_pure options old q_new new_node p0 st new_node = st.
Proof.
  destruct st as [[es e] c]. unfold rewire_pure, rewire_choice.
  now rewrite Nat.eqb_refl.
Qed.

(** With closed edges, rewiring swaps the last edge and nothing else. *)
Lemma rewire_pure_last_edge options (old : list (@Node E))
    (q_new : config) (p0 : nat) (es0 : list (@Edge E)) (other : nat)
    (e : @Edge E) (c : real) :
  Forall (fun x => nodeB x < length old) es0 ->
  nodeB e = length old ->
  exists e' c',
    rewire_pure options old q_new (length old) p0 (es0 ++ [e], e, c) other
      = (es0 ++ [e'], e', c') /\ nodeB e' = length old.
Proof.
  intros Hes0 He. unfold rewire_pure.
  destruct (rewire_choice _ _ _ _ _ _ _) as [[e' c']|] eqn:Hch;
    [|now exists e, c].
  apply rewire_choice_Some in Hch as (on & _ & _ & _ & _ & _ & _ & -> & ->).
  eexists _, _. split; [|shelve].
  rewrite filter_app, (filter_singleton_False _ _ []).
  2:{ unfold same_edge. rewrite !Nat.eqb_refl. discriminate. }
  rewrite app_nil_r.
  replace (filter _ es0) with es0; [reflexivity|].
  clear -Hes0 He. induction Hes0 as [|x l Hx _ IHl]; [reflexivity|].
  rewrite filter_cons_True, <- IHl; [reflexivity|].
  unfold same_edge. destruct (nodeB x =? nodeB e) eqn:Hb;
    [apply Nat.eqb_eq in Hb; lia|apply andb_false_r].
  Unshelve. reflexivity.
Qed.

Lemma fold_rewire_pure_last_edge options (old : list (@Node E))
    (q_new : config) (p0 : nat) (es0 : list (@Edge E)) (others : list nat)
    (e : @Edge E) (c : real) :
  Forall (fun x => nodeB x < length old) es0 ->
  nodeB e = length old ->
  let st' := fold_left (rewire_pure options old q_new (length old) p0)
               others (es0 ++ [e], e, c) in
  fst (fst st') = es0 ++ [snd (fst st')].
Proof.
  intros Hes0. revert e c.
  induction others as [|other rest IH]; intros e c He; [reflexivity|].
  cbn [fold_left].
  destruct (rewire_pure_last_edge options old q_new p0 es0 other e c Hes0 He)
    as (e' & c' & -> & He').
  now apply IH.
Qed.

(** C8. With [rrt_star], on a tree whose edges join its own nodes,
    [add_node_to_tree] returns the tree with the new node appended, hanging
    from the parent and at the cost that the rewiring of the specification
    ([rewire_spec], over the existing nodes in iteration order, starting
    from the parent chosen at insertion) arrives at, and with the one edge
    from that parent to the new node appended to the old edges. *)
Theorem add_node_to_tree_rewires_as_specified tree (q_new : config)
    (parent_node : nat) options (pn : @Node E) :
  rrt_star options = true ->
  edges_closed tree ->
  nodes tree !! parent_node = Some pn ->
  let new_node := length (nodes tree) in
  let final :=
    rewire_spec options (nodes tree) q_new new_node (iteration_order tree)
      (parent_node,
       radd E (cost pn) (configuration_distance E (q pn) q_new)) in
  exists final_parent,
    nodes tree !! fst final = Some final_parent /\
    add_node_to_tree tree q_new parent_node options =
      Ok (mkGraph (nodes tree ++ [mkNode q_new (Some (fst final)) (snd final)])
            (edges tree ++
               [mkEdge (fst final) new_node
                  (configuration_distance E (q final_parent) q_new)]),
          new_node).
Proof.
  intros Hstar Hclosed Hp new_node final.
  rewrite (add_node_to_tree_eq _ _ _ _ _ Hp).
  pose proof (inserted_attached options tree q_new parent_node pn Hp)
    as (HB & on & Hon & Hd & _).
  assert (Hfinal :
    (nodeA (snd (fst (inserted options tree q_new parent_node pn))),
     snd (inserted options tree q_new parent_node pn)) = final /\
    fst (fst (inserted options tree q_new parent_node pn)) =
      edges tree ++ [snd (fst (inserted options tree q_new parent_node pn))]).
  { unfold inserted. rewrite Hstar. cbv zeta. cbn [edge_cost]. split.
    - rewrite seq_S, fold_left_app. cbn [fold_left Nat.add].
      rewrite rewire_pure_self. unfold final, iteration_order, new_node.
      match goal with |- context [fold_left _ _ ?s] => set (st0 := s) end.
      change (parent_node,
              radd E (cost pn) (configuration_distance E (q pn) q_new))
        with (nodeA (snd (fst st0)), snd st0).
      apply (fold_rewire_pure_spec options (nodes tree) q_new parent_node pn
               (seq 0 (length (nodes tree))) st0 Hp (NoDup_seq _ _)).
      left. now split.
    - apply fold_rewire_pure_last_edge; [|reflexivity].
      eapply Forall_impl; [exact Hclosed|]. intros x [_ Hx]. exact Hx. }
  destruct Hfinal as [Hfinal Hes].
  destruct (inserted options tree q_new parent_node pn) as [[es e] c].
  cbn [fst snd rewired] in *. exists on. subst final.
  rewrite <- Hfinal. cbn [fst snd]. split; [assumption|].
  rewrite Hes. destruct e as [a b d]. cbn in *. now subst.
Qed.

End Rewiring.

(** ** The planning loop *)

Lemma nearest_from_bound (q_query : config) (l : list (@Node E))
    (i best : nat) (min_dist : real) :
  best < i -> nearest_from q_query l i best min_dist < i + length l.
Proof.
  revert i best min_dist.
  induction l as [|n l IH]; intros i best min_dist Hlt; cbn; [lia|].
  destruct (rlt E _ _).
  - specialize (IH (S i) i (configuration_distance E q_query (q n))). lia.
  - specialize (IH (S i) best min_dist). lia.
Qed.

Lemma get_nearest_node_Some g (q_query : config) (i : nat) :
  get_nearest_node g q_query = Some i -> exists n, nodes g !! i = Some n.
Proof.
  unfold get_nearest_node. destruct (nodes g) as [|n l] eqn:Hn; [discriminate|].
  intros [= <-]. apply lookup_lt_is_Some_2. cbn [length].
  pose proof (nearest_from_bound q_query l 1 0
                (configuration_distance E q_query (q n))). lia.
Qed.

Lemma add_node_to_tree_shape tree (q_new : config) (p : nat) options
    tree' (new_node : nat) :
  add_node_to_tree tree q_new p options = Ok (tree', new_node) ->
  exists pn st,
    nodes tree !! p = Some pn /\
    new_node = length (nodes tree) /\
    attached options (nodes tree) q_new (length (nodes tree)) p st /\
    nodes tree' =
      nodes tree ++ [mkNode q_new (Some (nodeA (snd (fst st)))) (snd st)].
Proof.
  intros H. destruct (add_node_to_tree_Ok _ _ _ _ _ H) as [pn Hp].
  rewrite (add_node_to_tree_eq _ _ _ _ _ Hp) in H.
  exists pn, (inserted options tree q_new p pn).
  pose proof (inserted_attached options tree q_new p pn Hp) as Hatt.
  destruct (inserted options tree q_new p pn) as [[es e] c].
  cbn [rewired fst snd] in *. injection H as <- <-. auto.
Qed.

Lemma round_extension_inv fuel (q_start q_goal : config) options
    (d : @draw E) (l : @locals E) (nearest : nat) (res : option config) :
  round_extension fuel q_start q_goal options d l = Ok (nearest, res) ->
  exists nn,
    nodes (if start_tree_phase l then l_start_tree l else l_goal_tree l)
      !! nearest = Some nn /\
    extend_or_connect fuel options nn
      (round_sample q_start q_goal options d (start_tree_phase l)) options
      = Ok res.
Proof.
  unfold round_extension. intros H.
  ok_step H i Hi. ok_step H nn Hnn. ok_step H r Hr. injection H as <- <-.
  apply of_option_Ok in Hnn. eauto.
Qed.

Lemma plan_round_inv fuel (q_start q_goal : config) options (d : @draw E)
    (l l' : @locals E) :
  plan_round fuel q_start q_goal options d l = Ok l' ->
  let phase := start_tree_phase l in
  let tree := if phase then l_start_tree l else l_goal_tree l in
  let other_tree := if phase then l_goal_tree l else l_start_tree l in
  let phase' := if bidirectional_rrt options then negb phase else phase in
  exists nearest res,
    round_extension fuel q_start q_goal options d l = Ok (nearest, res) /\
    match res with
    | None => l' = l
    | Some q_new =>
        exists tree1 new1 m other_n,
          add_node_to_tree tree q_new nearest options = Ok (tree1, new1) /\
          get_nearest_node other_tree q_new = Some m /\
          nodes other_tree !! m = Some other_n /\
          if path_in_collision options q_new (q other_n) then
            l' = mkLocals (if phase then tree1 else l_start_tree l)
                   (if phase then l_goal_tree l else tree1)
                   (goal_found l)
                   (if phase then new1 else latest_start_tree_node l)
                   (if phase then latest_goal_tree_node l else new1)
                   phase'
          else
            exists tree2 new2,
              add_node_to_tree tree1 (q other_n) new1 options
                = Ok (tree2, new2) /\
              l' = mkLocals (if phase then tree2 else l_start_tree l)
                     (if phase then l_goal_tree l else tree2)
                     true
                     (if phase then new2 else m)
                     (if phase then m else new2)
                     phase'
    end.
Proof.
  intros H phase tree other_tree phase'. unfold plan_round in H.
  ok_step H ext Hext. destruct ext as [nearest res]. exists nearest, res.
  split; [assumption|]. destruct res as [q_new|]; [|congruence].
  ok_step H added Hadd. destruct added as [tree1 new1].
  ok_step H new Hnew. ok_step H m Hm. ok_step H other_n Hother.
  apply of_option_Ok in Hnew, Hm, Hother.
  destruct (add_node_to_tree_shape _ _ _ _ _ _ Hadd)
    as (pn & st & _ & -> & _ & Hnodes).
  rewrite Hnodes, lookup_last in Hnew. injection Hnew as <-. cbn [q] in *.
  exists tree1, (length (nodes tree)), m, other_n.
  split; [assumption|]. split; [assumption|]. split; [assumption|].
  fold phase in H. fold phase'.
  destruct (path_in_collision options q_new (q other_n)); cbn [negb] in H.
  - cbn [bind] in H. injection H as <-. reflexivity.
  - ok_step H br Hbr. destruct br as [[[t ls] lg] found].
    ok_step Hbr added Hadd2. destruct added as [tree2 new2].
    exists tree2, new2. split; [assumption|].
    injection H as <-. destruct phase; injection Hbr as <- <- <- <-;
      reflexivity.
Qed.

(** C2 (as amended). With [bidirectional_rrt], a round of the planning loop
    flips the active tree exactly when its extend-or-connect produced a
    configuration, whether or not the new node then bridged to the other
    tree; a round whose extension produced nothing changes nothing, the
    active tree included. *)
Theorem plan_round_flips_on_extension fuel (q_start q_goal : config) options
    (d : @draw E) (l l' : @locals E) (nearest : nat) (res : option config) :
  bidirectional_rrt options = true ->
  round_extension fuel q_start q_goal options d l = Ok (nearest, res) ->
  plan_round fuel q_start q_goal options d l = Ok l' ->
  match res with
  | Some _ => start_tree_phase l' = negb (start_tree_phase l)
  | None => l' = l
  end.
Proof.
  intros Hbi Hext H. apply plan_round_inv in H.
  destruct H as (nearest' & res' & Hext' & H).
  rewrite Hext in Hext'. injection Hext' as <- <-.
  destruct res as [q_new|]; [|assumption].
  destruct H as (tree1 & new1 & m & other_n & _ & _ & _ & H).
  rewrite Hbi in H. destruct (path_in_collision _ _ _).
  - now subst l'.
  - destruct H as (tree2 & new2 & _ & ->). reflexivity.
Qed.

(** *** Path extraction *)

Lemma walk_parents_chain fuel tree (cur : option nat) (acc r : list config) :
  walk_parents fuel tree cur acc = Ok r ->
  exists chain, r = acc ++ chain /\ chain_of tree cur chain.
Proof.
  revert cur acc r.
  induction fuel as [|fuel IH]; intros cur acc r H; [discriminate|].
  cbn [walk_parents] in H. destruct cur as [i|].
  - ok_step H a Ha. apply of_option_Ok in Ha.
    apply IH in H as (chain & -> & Hchain).
    exists (q a :: chain). split; [now rewrite <- app_assoc|].
    now apply chain_cons.
  - injection H as <-. exists []. split; [now rewrite app_nil_r|].
    apply chain_nil.
Qed.

Lemma extract_path_from_trees_chains (start_tree goal_tree : @Graph E)
    (i j : option nat) (path : list config) :
  extract_path_from_trees start_tree goal_tree i j = Ok path ->
  exists up down,
    chain_of start_tree i up /\ chain_of goal_tree j down /\
    path = rev up ++ down.
Proof.
  unfold extract_path_from_trees. intros H. ok_step H p1 Hp1.
  apply walk_parents_chain in Hp1 as (up & -> & Hup).
  apply walk_parents_chain in H as (down & -> & Hdown).
  exists up, down. auto.
Qed.

Lemma plan_loop_invariant (P : @locals E -> Prop) fuel
    (q_start q_goal : config) options (draws : list (@draw E))
    (l l' : @locals E) :
  (forall d l1 l2, P l1 -> goal_found l1 = false ->
     plan_round fuel q_start q_goal options d l1 = Ok l2 -> P l2) ->
  P l ->
  plan_loop fuel q_start q_goal options draws l = Ok l' ->
  P l'.
Proof.
  intros Hstep. revert l.
  induction draws as [|d draws IH]; intros l HP H; cbn [plan_loop] in H;
    destruct (goal_found l) eqn:Hfound; try congruence.
  destruct (rlt E _ _); [congruence|].
  ok_step H l1 Hl1. eapply IH; [|exact H]. eapply Hstep; eauto.
Qed.

Lemma plan_inv (self self' : @RRTPlanner E) fuel (draws : list (@draw E))
    (q_start q_goal : config) opts (path : list config) :
  plan self fuel draws q_start q_goal opts = Ok (Some path, self') ->
  path <> [] ->
  check_collisions_at_state E q_start = false /\
  check_collisions_at_state E q_goal = false /\
  exists l,
    plan_loop fuel q_start q_goal opts draws
      (mkLocals (mkGraph [root q_start] []) (mkGraph [root q_goal] [])
         (negb (path_in_collision opts q_start q_goal)) 0 0 true) = Ok l /\
    goal_found l = true /\
    extract_path_from_trees (l_start_tree l) (l_goal_tree l)
      (Some (latest_start_tree_node l)) (Some (latest_goal_tree_node l))
      = Ok path /\
    start_tree self' = l_start_tree l /\ goal_tree self' = l_goal_tree l.
Proof.
  unfold plan. cbn [reset add_node empty_graph nodes edges app length
                    start_tree goal_tree latest_path options].
  intros H Hne.
  destruct (check_collisions_at_state E q_start); [discriminate|].
  destruct (check_collisions_at_state E q_goal); [discriminate|].
  split; [reflexivity|]. split; [reflexivity|].
  ok_step H l Hl. exists l. split; [assumption|].
  destruct (goal_found l); [|congruence].
  ok_step H path' Hpath. injection H as <- <-. auto.
Qed.

(** The two ends of a bridge carry the same configuration. *)
Lemma plan_round_bridge fuel (q_start q_goal : config) options (d : @draw E)
    (l l' : @locals E) :
  goal_found l = false ->
  plan_round fuel q_start q_goal options d l = Ok l' ->
  goal_found l' = true ->
  exists ns ng,
    nodes (l_start_tree l') !! latest_start_tree_node l' = Some ns /\
    nodes (l_goal_tree l') !! latest_goal_tree_node l' = Some ng /\
    q ns = q ng.
Proof.
  intros Hnot H Hfound. apply plan_round_inv in H.
  destruct H as (nearest & res & _ & H).
  destruct res as [q_new|]; [|congruence].
  destruct H as (tree1 & new1 & m & other_n & _ & _ & Hother & H).
  destruct (path_in_collision options q_new (q other_n)).
  { subst l'. cbn in Hfound. congruence. }
  destruct H as (tree2 & new2 & Hadd & ->).
  apply add_node_to_tree_shape in Hadd
    as (pn & st & _ & -> & _ & Hnodes).
  cbn [l_start_tree l_goal_tree latest_start_tree_node latest_goal_tree_node].
  destruct (start_tree_phase l).
  - eexists _, other_n. rewrite Hnodes, lookup_last. auto.
  - eexists other_n, _. rewrite Hnodes, lookup_last. auto.
Qed.

(** C10. When the direct segment from [q_start] to [q_goal] is in collision
    and [plan] still returns a non-empty path, the path holds the bridging
    configuration twice in a row: the reversed walk from the start tree's
    end of the bridge finishes with it and the walk from the goal tree's
    end begins with it, the two ends being nodes with that same
    configuration. *)
Theorem plan_path_repeats_bridge (self self' : @RRTPlanner E) fuel
    (draws : list (@draw E)) (q_start q_goal : config) opts
    (path : list config) :
  path_in_collision opts q_start q_goal = true ->
  plan self fuel draws q_start q_goal opts = Ok (Some path, self') ->
  path <> [] ->
  exists before bridge after i j ns ng,
    path = before ++ bridge :: bridge :: after /\
    nodes (start_tree self') !! i = Some ns /\ q ns = bridge /\
    nodes (goal_tree self') !! j = Some ng /\ q ng = bridge /\
    chain_of (start_tree self') (Some i) (rev (before ++ [bridge])) /\
    chain_of (goal_tree self') (Some j) (bridge :: after).
Proof.
  intros Hdirect H Hne.
  apply plan_inv in H as (_ & _ & l & Hloop & Hfound & Hpath & -> & ->);
    [|assumption].
  rewrite Hdirect in Hloop. cbn [negb] in Hloop.
  assert (goal_found l = true ->
          exists ns ng,
            nodes (l_start_tree l) !! latest_start_tree_node l = Some ns /\
            nodes (l_goal_tree l) !! latest_goal_tree_node l = Some ng /\
            q ns = q ng) as Hbridge.
  { eapply (plan_loop_invariant
              (fun l => goal_found l = true ->
                 exists ns ng,
                   nodes (l_start_tree l) !! latest_start_tree_node l
                     = Some ns /\
                   nodes (l_goal_tree l) !! latest_goal_tree_node l
                     = Some ng /\
                   q ns = q ng)); [| |exact Hloop].
    - intros d l1 l2 _ Hnot Hround. now apply plan_round_bridge with (l := l1)
        (fuel := fuel) (q_start := q_start) (q_goal := q_goal)
        (options := opts) (d := d).
    - cbn. discriminate. }
  destruct (Hbridge Hfound) as (ns & ng & Hns & Hng & Heq).
  apply extract_path_from_trees_chains in Hpath
    as (up & down & Hup & Hdown & ->).
  inversion Hup as [|i n1 rest1 Hn1 Hrest1]; subst.
  inversion Hdown as [|j n2 rest2 Hn2 Hrest2]; subst.
  rewrite Hns in Hn1. rewrite Hng in Hn2.
  injection Hn1 as <-. injection Hn2 as <-.
  exists (rev rest1), (q ns), rest2, (latest_start_tree_node l),
    (latest_goal_tree_node l), ns, ng.
  split; [cbn [rev]; rewrite <- app_assoc, Heq; reflexivity|].
  repeat split; auto.
  - rewrite rev_app_distr, rev_involutive. exact Hup.
  - rewrite Heq. exact Hdown.
Qed.

(** ** Validated paths *)

Lemma extend_or_connect_single_validated fuel self_options
    (parent_node : @Node E) (q_sample q_new : config) options :
  rrt_connect options = false ->
  extend_or_connect fuel self_options parent_node q_sample options
    = Ok (Some q_new) ->
  validated self_options (q parent_node) q_new = true.
Proof.
  intros Hc H. unfold extend_or_connect in H. ok_step H inc Hinc.
  destruct fuel as [|fuel]; [discriminate|].
  rewrite extend_loop_single in H by done.
  destruct (validated self_options (q parent_node) _) eqn:Hv; congruence.
Qed.

Lemma pairs_free_app o (l1 l2 : list config) :
  pairs_free o l1 -> pairs_free o l2 ->
  (forall a b, last l1 = Some a -> head l2 = Some b -> segment_free o a b) ->
  pairs_free o (l1 ++ l2).
Proof.
  intros H1 H2 Hjoin. induction l1 as [|a [|b l1] IH].
  - exact H2.
  - destruct l2 as [|c l2]; [exact I|]. cbn. split; [|exact H2].
    now apply Hjoin.
  - destruct H1 as [Hab H1]. cbn [app pairs_free]. split; [exact Hab|].
    apply IH; [exact H1|]. intros x y Hx. apply Hjoin.
    now rewrite last_cons_cons.
Qed.

Section Validated.
Variable o : @RRTPlannerOptions E.
Hypothesis segment_sym : forall a b : config,
  segment_free o a b -> segment_free o b a.
Hypothesis segment_point : forall a : config,
  check_collisions_at_state E a = false -> segment_free o a a.

Lemma add_node_to_tree_valid tree (q_new : config) (p : nat) pn tree'
    (new_node : nat) :
  tree_valid o tree ->
  nodes tree !! p = Some pn ->
  check_collisions_at_state E q_new = false ->
  segment_free o (q pn) q_new ->
  add_node_to_tree tree q_new p o = Ok (tree', new_node) ->
  tree_valid o tree'.
Proof.
  intros Hvalid Hp Hnew Hseg H.
  apply add_node_to_tree_shape in H
    as (pn' & st & Hp' & -> & (_ & on & Hon & _ & _ & Hchoice) & Hnodes).
  rewrite Hp in Hp'. injection Hp' as <-.
  intros i n Hi. rewrite Hnodes in Hi |- *.
  apply lookup_app_Some in Hi as [Hi|[Hge Hi]].
  - destruct (Hvalid i n Hi) as [Hfree Hpar]. split; [exact Hfree|].
    destruct (parent n) as [pi|]; [|exact I].
    destruct Hpar as (pin & Hlt & Hpin & Hs). exists pin.
    split; [exact Hlt|]. split; [now apply lookup_app_l_Some|exact Hs].
  - apply list_lookup_singleton_Some in Hi as [Hi <-]. cbn [q parent].
    split; [exact Hnew|]. exists on.
    pose proof (lookup_lt_Some _ _ _ Hon).
    split; [lia|]. split; [now apply lookup_app_l_Some|].
    destruct Hchoice as [Heq|Hfree].
    + rewrite Heq, Hp in Hon. now injection Hon as <-.
    + now apply segment_sym.
Qed.

(** What the planning loop keeps true: both trees are validated, and once
    the goal is found the two final nodes are joined by a collision-free
    segment. *)
Lemma plan_round_valid fuel (q_start q_goal : config) (d : @draw E)
    (l l' : @locals E) :
  rrt_connect o = false ->
  tree_valid o (l_start_tree l) -> tree_valid o (l_goal_tree l) ->
  goal_found l = false ->
  plan_round fuel q_start q_goal o d l = Ok l' ->
  tree_valid o (l_start_tree l') /\ tree_valid o (l_goal_tree l') /\
  (goal_found l' = true ->
   exists ns ng,
     nodes (l_start_tree l') !! latest_start_tree_node l' = Some ns /\
     nodes (l_goal_tree l') !! latest_goal_tree_node l' = Some ng /\
     segment_free o (q ns) (q ng)).
Proof.
  intros Hc Hs Hg Hnot H. apply plan_round_inv in H.
  destruct H as (nearest & res & Hext & H).
  destruct res as [q_new|].
  2:{ subst l'. split; [assumption|]. split; [assumption|]. congruence. }
  destruct H as (tree1 & new1 & m & other_n & Hadd & _ & Hother & H).
  apply round_extension_inv in Hext as (nn & Hnn & Hext).
  apply extend_or_connect_single_validated in Hext; [|exact Hc].
  apply andb_true_iff in Hext as [Hfree Hseg].
  apply negb_true_iff in Hfree, Hseg.
  assert (Hactive : tree_valid o (if start_tree_phase l then l_start_tree l
                                  else l_goal_tree l))
    by (destruct (start_tree_phase l); assumption).
  assert (Hpassive : tree_valid o (if start_tree_phase l then l_goal_tree l
                                   else l_start_tree l))
    by (destruct (start_tree_phase l); assumption).
  pose proof (add_node_to_tree_valid _ _ _ _ _ _ Hactive Hnn Hfree Hseg Hadd)
    as Hvalid1.
  destruct (path_in_collision o q_new (q other_n)) eqn:Hbridge.
  { subst l'. cbn [l_start_tree l_goal_tree goal_found].
    destruct (start_tree_phase l);
      (split; [assumption|]; split; [assumption|]; congruence). }
  destruct H as (tree2 & new2 & Hadd2 & ->).
  destruct (Hpassive m other_n Hother) as [Hother_free _].
  pose proof Hadd as Hshape1.
  apply add_node_to_tree_shape in Hshape1 as (_ & st1 & _ & -> & _ & Hnodes1).
  assert (Hnew1 : nodes tree1 !! length (nodes (if start_tree_phase l
                    then l_start_tree l else l_goal_tree l))
                  = Some (mkNode q_new (Some (nodeA (snd (fst st1))))
                            (snd st1)))
    by (rewrite Hnodes1; apply lookup_last).
  pose proof (add_node_to_tree_valid _ _ _ _ _ _ Hvalid1 Hnew1 Hother_free
                Hbridge Hadd2) as Hvalid2.
  apply add_node_to_tree_shape in Hadd2 as (_ & st2 & _ & -> & _ & Hnodes2).
  cbn [l_start_tree l_goal_tree latest_start_tree_node latest_goal_tree_node
       goal_found].
  destruct (start_tree_phase l); (split; [assumption|split; [assumption|]]);
    intros _.
  - eexists _, other_n. rewrite Hnodes2, lookup_last.
    split; [reflexivity|]. split; [assumption|]. now apply segment_point.
  - eexists other_n, _. rewrite Hnodes2, lookup_last.
    split; [assumption|]. split; [reflexivity|]. now apply segment_point.
Qed.

Lemma chain_of_valid tree (cur : option nat) (chain : list config) :
  tree_valid o tree ->
  chain_of tree cur chain ->
  pairs_free o chain /\ pairs_free o (rev chain).
Proof.
  intros Hvalid Hchain.
  induction Hchain as [|i n rest Hn Hrest [IHdown IHup]]; [now split|].
  destruct (Hvalid i n Hn) as [_ Hpar].
  inversion Hrest as [Hroot|p pn rest' Hpn Hrest' Hp]; subst.
  - now split.
  - rewrite <- Hp in Hpar. destruct Hpar as (pn' & _ & Hpn' & Hseg).
    rewrite Hpn in Hpn'. injection Hpn' as <-. split.
    + split; [now apply segment_sym|exact IHdown].
    + change (rev (q n :: q pn :: rest')) with (rev (q pn :: rest') ++ [q n]).
      apply pairs_free_app; [exact IHup|exact I|].
      intros a b Ha Hb. cbn [rev] in Ha. rewrite last_snoc in Ha.
      injection Ha as <-. injection Hb as <-. exact Hseg.
Qed.


End Validated.

End Theory.

(** * More of the planner *)

Section Coverage.
Context {E : Env}.

Local Abbreviation config := (config E).
Local Abbreviation real := (real E).
Implicit Types (o options self_options : @RRTPlannerOptions E).
Implicit Types (g tree : @Graph E) (n : @Node E) (e : @Edge E).

Ltac bind_step H a Ha := apply bind_Ok in H; destruct H as (a & Ha & H).

(** ** What [extend_or_connect] can return *)

Lemma extend_loop_result fuel self_options options
    (q_sample q_increment q_cur : config) (q_out res : option config) :
  extend_loop fuel self_options options q_sample q_increment (q_cur, q_out)
    = Ok res ->
  (validated self_options q_cur
     (proposal options q_sample q_increment q_cur) = false /\ res = q_out) \/
  (validated self_options q_cur
     (proposal options q_sample q_increment q_cur) = true /\
   exists r,
     res = Some r /\ check_collisions_at_state E r = false /\
     (r = q_sample \/
      exists k, 0 < k /\
        r = Nat.iter k (fun c => vadd E c q_increment) q_cur)).
Proof.
  revert q_cur q_out.
  induction fuel as [|fuel IH]; intros q_cur q_out H; [discriminate|].
  cbn [extend_loop] in H. rewrite extend_round_eq in H. cbv zeta in H.
  destruct (validated self_options q_cur _) eqn:Hv.
  2:{ left. split; [reflexivity|congruence]. }
  right. split; [reflexivity|].
  assert (Hfree : check_collisions_at_state E
                    (proposal options q_sample q_increment q_cur) = false).
  { unfold validated in Hv. apply andb_true_iff in Hv as [Hv _].
    now apply negb_true_iff in Hv. }
  unfold proposal in H, Hfree.
  destruct (far_from options q_cur q_sample) eqn:Hfar; cbn [negb orb] in H.
  - destruct (rrt_connect options); cbn [negb] in H.
    + apply IH in H as [[_ ->]|(_ & r & -> & Hr & Hwhere)].
      * eexists. split; [reflexivity|]. split; [exact Hfree|].
        right. exists 1. split; [lia|reflexivity].
      * exists r. split; [reflexivity|]. split; [exact Hr|].
        destruct Hwhere as [->|(k & Hk & ->)]; [now left|right].
        exists (S k). split; [lia|]. now rewrite Nat.iter_succ_r.
    + injection H as <-. eexists. split; [reflexivity|].
      split; [exact Hfree|]. right. exists 1. split; [lia|reflexivity].
  - injection H as <-. eexists. split; [reflexivity|].
    split; [exact Hfree|]. now left.
Qed.

(** X1. Once the increment is computed, whatever the options,
    [extend_or_connect] returns nothing exactly when the first proposed
    step is not validated; a configuration it returns is not in collision
    and is the sample itself or the parent's configuration advanced by a
    whole number of increments. *)
Theorem extend_or_connect_result fuel self_options (parent_node : @Node E)
    (q_sample : config) options (q_increment : config)
    (res : option config) :
  vdiv E (vscale E (max_connection_dist options)
            (vsub E q_sample (q parent_node)))
         (vnorm E (vsub E q_sample (q parent_node))) = Some q_increment ->
  extend_or_connect fuel self_options parent_node q_sample options = Ok res ->
  (res = None <->
   validated self_options (q parent_node)
     (proposal options q_sample q_increment (q parent_node)) = false) /\
  (forall r, res = Some r ->
     check_collisions_at_state E r = false /\
     (r = q_sample \/
      exists k, 0 < k /\
        r = Nat.iter k (fun c => vadd E c q_increment) (q parent_node))).
Proof.
  intros Hdiv H. unfold extend_or_connect in H. rewrite Hdiv in H.
  cbn [of_option bind] in H.
  apply extend_loop_result in H as [[Hv ->]|(Hv & r & -> & Hr & Hwhere)].
  - split; [now split|]. discriminate.
  - split; [split; [discriminate|congruence]|].
    intros r' [= <-]. now split.
Qed.

Lemma extend_or_connect_free fuel self_options (parent_node : @Node E)
    (q_sample q_new : config) options :
  extend_or_connect fuel self_options parent_node q_sample options
    = Ok (Some q_new) ->
  check_collisions_at_state E q_new = false.
Proof.
  intros H. unfold extend_or_connect in H. bind_step H inc Hinc.
  apply extend_loop_result in H as [[_ H]|(_ & r & H & Hr & _)];
    congruence.
Qed.

(** ** The cheapest parent *)

Section Cheapest.
Hypothesis rlt_asym : forall a b : real, rlt E a b = true -> rlt E b a = false.
Hypothesis rlt_trans : forall a b c : real,
  rlt E a b = true -> rlt E b c = true -> rlt E a c = true.

Lemma rewire_pure_cheapest options (old : list (@Node E)) (q_new : config)
    (p0 : nat) (pn0 : @Node E) (st : list Edge * Edge * real)
    (other : nat) :
  old !! p0 = Some pn0 ->
  (snd st = cost_through pn0 q_new \/
   rlt E (snd st) (cost_through pn0 q_new) = true) ->
  let c' := snd (rewire_pure options old q_new (length old) p0 st other) in
  (c' = snd st \/ rlt E c' (snd st) = true) /\
  (forall on, old !! other = Some on ->
     rlt E (max_rewire_dist options)
       (configuration_distance E (q on) q_new) = false ->
     path_in_collision options q_new (q on) = false ->
     rlt E (cost_through on q_new) c' = false).
Proof.
  intros Hp0 Hc0. destruct st as [[es e] c]. cbn [snd] in *.
  assert (Hirr : forall a : real, rlt E a a = false).
  { intros a. destruct (rlt E a a) eqn:Ha; [|reflexivity].
    now rewrite (rlt_asym _ _ Ha) in Ha. }
  unfold rewire_pure, rewire_choice.
  destruct (other =? length old) eqn:Hnew; cbn [orb snd].
  { apply Nat.eqb_eq in Hnew as ->. split; [now left|].
    intros on Hon. apply lookup_lt_Some in Hon. lia. }
  destruct (other =? p0) eqn:Hpar; cbn [orb snd].
  { apply Nat.eqb_eq in Hpar as ->. split; [now left|].
    intros on Hon _ _. rewrite Hp0 in Hon. injection Hon as <-.
    destruct Hc0 as [->|Hlt]; [apply Hirr|now apply rlt_asym]. }
  destruct (old !! other) as [on|]; [|split; [now left|discriminate]].
  fold (cost_through on q_new).
  destruct (rlt E (max_rewire_dist options) _) eqn:Hfar.
  { split; [now left|]. intros on' [= <-]. congruence. }
  destruct (rlt E (cost_through on q_new) c) eqn:Hlt; cbn [andb].
  2:{ split; [now left|]. intros on' [= <-]. auto. }
  destruct (path_in_collision options q_new (q on)) eqn:Hcol; cbn [negb snd].
  { split; [now left|]. intros on' [= <-]. congruence. }
  split; [now right|]. intros on' [= <-] _ _. apply Hirr.
Qed.

Lemma fold_rewire_pure_cheapest options (old : list (@Node E))
    (q_new : config) (p0 : nat) (pn0 : @Node E) (others : list nat)
    (st : list Edge * Edge * real) (seen : nat -> Prop) :
  old !! p0 = Some pn0 ->
  (snd st = cost_through pn0 q_new \/
   rlt E (snd st) (cost_through pn0 q_new) = true) ->
  (forall j on, seen j -> old !! j = Some on ->
     rlt E (max_rewire_dist options)
       (configuration_distance E (q on) q_new) = false ->
     path_in_collision options q_new (q on) = false ->
     rlt E (cost_through on q_new) (snd st) = false) ->
  let c' := snd (fold_left (rewire_pure options old q_new (length old) p0)
                   others st) in
  (c' = cost_through pn0 q_new \/
   rlt E c' (cost_through pn0 q_new) = true) /\
  (forall j on, seen j \/ j ∈ others -> old !! j = Some on ->
     rlt E (max_rewire_dist options)
       (configuration_distance E (q on) q_new) = false ->
     path_in_collision options q_new (q on) = false ->
     rlt E (cost_through on q_new) c' = false).
Proof.
  intros Hp0. revert st seen.
  induction others as [|other rest IH]; intros st seen Hc0 Hseen.
  { split; [exact Hc0|]. intros j on [Hj|Hj]; [now apply Hseen|].
    now apply elem_of_nil in Hj. }
  cbn [fold_left].
  destruct (rewire_pure_cheapest options old q_new p0 pn0 st other Hp0 Hc0)
    as [Hdown Hother].
  set (st1 := rewire_pure options old q_new (length old) p0 st other) in *.
  destruct (IH st1 (fun j => seen j \/ j = other)) as [Hc0' Hall].
  - destruct Hdown as [->|Hlt]; [exact Hc0|right].
    destruct Hc0 as [<-|Hc0]; [exact Hlt|now apply (rlt_trans _ _ _ Hlt)].
  - intros j on [Hj| ->] Hon Hnear Hfree; [|now apply (Hother on)].
    specialize (Hseen j on Hj Hon Hnear Hfree).
    destruct Hdown as [->|Hlt]; [exact Hseen|].
    destruct (rlt E (cost_through on q_new) (snd st1)) eqn:Hbeat;
      [|reflexivity].
    now rewrite (rlt_trans _ _ _ Hbeat Hlt) in Hseen.
  - split; [exact Hc0'|]. intros j on Hj. apply Hall.
    destruct Hj as [Hj|Hj]; [now left; left|].
    apply elem_of_cons in Hj as [->|Hj]; [now left; right|now right].
Qed.

(** X2. With [rrt_star] and an order [<] that is asymmetric and
    transitive, [add_node_to_tree] leaves the new node hanging from a node
    of the old tree at the cost through that node, a cost that is not above
    the cost through the parent asked for and that no node of the old tree
    within [max_rewire_dist] and with a collision-free segment to the new
    configuration would undercut. *)
Theorem add_node_to_tree_cheapest_parent tree (q_new : config)
    (parent_node : nat) options (pn : @Node E) :
  rrt_star options = true ->
  nodes tree !! parent_node = Some pn ->
  exists tree' new final_parent final,
    add_node_to_tree tree q_new parent_node options
      = Ok (tree', length (nodes tree)) /\
    nodes tree' !! length (nodes tree) = Some new /\
    parent new = Some final_parent /\
    nodes tree !! final_parent = Some final /\
    cost new = cost_through final q_new /\
    (cost new = cost_through pn q_new \/
     rlt E (cost new) (cost_through pn q_new) = true) /\
    (forall j other, nodes tree !! j = Some other ->
       rlt E (max_rewire_dist options)
         (configuration_distance E (q other) q_new) = false ->
       path_in_collision options q_new (q other) = false ->
       rlt E (cost_through other q_new) (cost new) = false).
Proof.
  intros Hstar Hp.
  pose proof (add_node_to_tree_eq tree q_new parent_node options pn Hp)
    as Hadd.
  pose proof (inserted_attached options tree q_new parent_node pn Hp)
    as (_ & on & Hon & Hd & Hc & _).
  assert (Hbest :
    (snd (inserted options tree q_new parent_node pn) = cost_through pn q_new
     \/ rlt E (snd (inserted options tree q_new parent_node pn))
          (cost_through pn q_new) = true) /\
    (forall j other, nodes tree !! j = Some other ->
       rlt E (max_rewire_dist options)
         (configuration_distance E (q other) q_new) = false ->
       path_in_collision options q_new (q other) = false ->
       rlt E (cost_through other q_new)
         (snd (inserted options tree q_new parent_node pn)) = false)).
  { unfold inserted. rewrite Hstar. cbv zeta. cbn [edge_cost].
    match goal with |- context [fold_left _ _ ?s] => set (st0 := s) end.
    destruct (fold_rewire_pure_cheapest options (nodes tree) q_new
                parent_node pn (seq 0 (S (length (nodes tree)))) st0
                (fun _ => False) Hp) as [Hdown Hall].
    - now left.
    - intros j other' [].
    - split; [exact Hdown|]. intros j other Hj.
      apply (Hall j other); [|exact Hj].
      right. apply elem_of_seq. apply lookup_lt_Some in Hj. lia. }
  destruct Hbest as [Hdown Hall].
  destruct (inserted options tree q_new parent_node pn) as [[es e] c].
  cbn [rewired fst snd] in *.
  eexists _, _, (nodeA e), on. split; [exact Hadd|]. cbn [nodes].
  split; [apply lookup_last|]. cbn [parent cost].
  split; [reflexivity|]. split; [exact Hon|].
  split; [unfold cost_through; now rewrite Hc, Hd|]. now split.
Qed.

End Cheapest.

(** ** The trees that planning grows *)

Lemma inserted_edges options tree (q_new : config) (p : nat) pn :
  Forall (fun x => nodeB x < length (nodes tree)) (edges tree) ->
  fst (fst (inserted options tree q_new p pn)) =
    edges tree ++ [snd (fst (inserted options tree q_new p pn))].
Proof.
  intros Hclosed. unfold inserted. cbv zeta.
  destruct (rrt_star options); [|reflexivity].
  now apply fold_rewire_pure_last_edge.
Qed.

Lemma tree_shaped_root (q0 : config) :
  tree_shaped q0 (mkGraph [root q0] []).
Proof.
  split; [reflexivity|]. split; [|split; [|split]].
  - intros i n Hi. cbn [nodes] in Hi.
    now apply list_lookup_singleton_Some in Hi as [-> <-].
  - intros e He. now apply elem_of_nil in He.
  - reflexivity.
  - apply cost_consistent_root.
Qed.

Lemma add_node_to_tree_tree_shaped (root_q : config) tree (q_new : config)
    (p : nat) options tree' (new_node : nat) :
  tree_shaped root_q tree ->
  add_node_to_tree tree q_new p options = Ok (tree', new_node) ->
  tree_shaped root_q tree'.
Proof.
  intros (Hroot & Hnodes & Hedges & Hcount & Hcost) H.
  destruct (add_node_to_tree_Ok _ _ _ _ _ H) as [pn Hp].
  rewrite (add_node_to_tree_eq _ _ _ _ _ Hp) in H.
  pose proof (inserted_attached options tree q_new p pn Hp) as Hatt.
  pose proof (inserted_edges options tree q_new p pn) as Hes.
  pose proof (rewired_cost_consistent options (nodes tree) (edges tree) q_new
                p (inserted options tree q_new p pn)
                (cost_consistent_nodes _ _ Hcost) Hatt) as Hcost'.
  destruct Hatt as (HB & on & Hon & Hd & _).
  destruct (inserted options tree q_new p pn) as [[es e] c].
  cbn [rewired fst snd] in *. injection H as <- <-.
  rewrite Hes.
  2:{ apply Forall_forall. intros x Hx.
      destruct (Hedges x Hx) as (n & _ & Hn & _).
      now apply lookup_lt_Some in Hn. }
  clear Hes. pose proof (lookup_lt_Some _ _ _ Hon) as Hlt.
  assert (He : e = mkEdge (nodeA e) (length (nodes tree))
                     (configuration_distance E (q on) q_new))
    by (destruct e; cbn in *; congruence).
  split; [|split; [|split; [|split]]]; cbn [nodes edges].
  - now apply lookup_app_l_Some.
  - intros i n Hi. apply lookup_app_Some in Hi as [Hi|[Hge Hi]].
    + specialize (Hnodes i n Hi). destruct (parent n) as [pi|]; [|exact Hnodes].
      destruct Hnodes as (Hpi & pin & Hpin & Hin). split; [exact Hpi|].
      exists pin. split; [now apply lookup_app_l_Some|].
      apply elem_of_app. now left.
    + apply list_lookup_singleton_Some in Hi as [Hi <-]. cbn [parent q].
      assert (i = length (nodes tree)) as -> by lia.
      split; [exact Hlt|]. exists on.
      split; [now apply lookup_app_l_Some|].
      apply elem_of_app. right. rewrite <- He. now apply list_elem_of_singleton.
  - intros x Hx. apply elem_of_app in Hx as [Hx|Hx].
    + destruct (Hedges x Hx) as (n & pin & Hn & Hpar & Hpin & Hc).
      exists n, pin. repeat split; auto using lookup_app_l_Some.
    + apply list_elem_of_singleton in Hx as ->.
      exists (mkNode q_new (Some (nodeA e)) c), on. rewrite HB.
      split; [apply lookup_last|]. split; [reflexivity|].
      split; [now apply lookup_app_l_Some|exact Hd].
  - rewrite !length_app. cbn [length]. lia.
  - exact Hcost'.
Qed.

Lemma add_node_to_tree_all_free tree (q_new : config) (p : nat) options
    tree' (new_node : nat) :
  all_free tree ->
  check_collisions_at_state E q_new = false ->
  add_node_to_tree tree q_new p options = Ok (tree', new_node) ->
  all_free tree'.
Proof.
  intros Hfree Hnew H.
  apply add_node_to_tree_shape in H as (_ & st & _ & _ & _ & Hnodes).
  intros i n Hi. rewrite Hnodes in Hi.
  apply lookup_app_Some in Hi as [Hi|[_ Hi]]; [now apply (Hfree i n)|].
  now apply list_lookup_singleton_Some in Hi as [_ <-].
Qed.

Lemma add_node_to_tree_length tree (q_new : config) (p : nat) options
    tree' (new_node : nat) :
  add_node_to_tree tree q_new p options = Ok (tree', new_node) ->
  new_node = length (nodes tree) /\
  length (nodes tree') = S (length (nodes tree)).
Proof.
  intros H. apply add_node_to_tree_shape in H
    as (_ & st & _ & -> & _ & ->).
  rewrite length_app. cbn [length]. split; [reflexivity|lia].
Qed.

Lemma plan_round_ok fuel (q_start q_goal : config) options (d : @draw E)
    (l l' : @locals E) :
  locals_ok q_start q_goal l ->
  plan_round fuel q_start q_goal options d l = Ok l' ->
  locals_ok q_start q_goal l'.
Proof.
  intros Hok H. pose proof Hok as (Hs & Hg & Hfs & Hfg & Hls & Hlg).
  apply plan_round_inv in H. destruct H as (nearest & res & Hext & H).
  destruct res as [q_new|]; [|now subst l'].
  destruct H as (tree1 & new1 & m & other_n & Hadd & _ & Hother & H).
  apply round_extension_inv in Hext as (nn & _ & Hext).
  apply extend_or_connect_free in Hext.
  pose proof (add_node_to_tree_length _ _ _ _ _ _ Hadd) as [Hnew1 Hlen1].
  pose proof (lookup_lt_Some _ _ _ Hother) as Hm.
  unfold locals_ok.
  destruct (start_tree_phase l) eqn:Hphase.
  - pose proof (add_node_to_tree_tree_shaped _ _ _ _ _ _ _ Hs Hadd) as Hs1.
    pose proof (add_node_to_tree_all_free _ _ _ _ _ _ Hfs Hext Hadd) as Hf1.
    destruct (path_in_collision options q_new (q other_n)).
    + subst l'. cbn [l_start_tree l_goal_tree latest_start_tree_node
                     latest_goal_tree_node].
      split; [assumption|]. split; [assumption|]. split; [assumption|].
      split; [assumption|]. split; [lia|assumption].
    + destruct H as (tree2 & new2 & Hadd2 & ->).
      pose proof (add_node_to_tree_length _ _ _ _ _ _ Hadd2) as [Hnew2 Hlen2].
      cbn [l_start_tree l_goal_tree latest_start_tree_node
           latest_goal_tree_node].
      split; [now apply (add_node_to_tree_tree_shaped _ _ _ _ _ _ _ Hs1 Hadd2)|].
      split; [assumption|].
      split; [apply (add_node_to_tree_all_free _ _ _ _ _ _ Hf1
                       (Hfg m other_n Hother) Hadd2)|].
      split; [assumption|]. split; [lia|assumption].
  - pose proof (add_node_to_tree_tree_shaped _ _ _ _ _ _ _ Hg Hadd) as Hg1.
    pose proof (add_node_to_tree_all_free _ _ _ _ _ _ Hfg Hext Hadd) as Hf1.
    destruct (path_in_collision options q_new (q other_n)).
    + subst l'. cbn [l_start_tree l_goal_tree latest_start_tree_node
                     latest_goal_tree_node].
      split; [assumption|]. split; [assumption|]. split; [assumption|].
      split; [assumption|]. split; [assumption|lia].
    + destruct H as (tree2 & new2 & Hadd2 & ->).
      pose proof (add_node_to_tree_length _ _ _ _ _ _ Hadd2) as [Hnew2 Hlen2].
      cbn [l_start_tree l_goal_tree latest_start_tree_node
           latest_goal_tree_node].
      split; [assumption|].
      split; [now apply (add_node_to_tree_tree_shaped _ _ _ _ _ _ _ Hg1 Hadd2)|].
      split; [assumption|].
      split; [apply (add_node_to_tree_all_free _ _ _ _ _ _ Hf1
                       (Hfs m other_n Hother) Hadd2)|].
      split; [assumption|lia].
Qed.

(** The ways in which [plan] returns. *)
Lemma plan_cases (self self' : @RRTPlanner E) fuel (draws : list (@draw E))
    (q_start q_goal : config) opts (res : option (list config)) :
  plan self fuel draws q_start q_goal opts = Ok (res, self') ->
  ((check_collisions_at_state E q_start = true \/
    check_collisions_at_state E q_goal = true) /\
   res = None /\
   self' = mkPlanner None (mkGraph [root q_start] [])
             (mkGraph [root q_goal] []) (Some opts)) \/
  (check_collisions_at_state E q_start = false /\
   check_collisions_at_state E q_goal = false /\
   exists l path,
     plan_loop fuel q_start q_goal opts draws
       (mkLocals (mkGraph [root q_start] []) (mkGraph [root q_goal] [])
          (negb (path_in_collision opts q_start q_goal)) 0 0 true) = Ok l /\
     res = Some path /\
     self' = mkPlanner (Some path) (l_start_tree l) (l_goal_tree l)
               (Some opts) /\
     (if goal_found l
      then extract_path_from_trees (l_start_tree l) (l_goal_tree l)
             (Some (latest_start_tree_node l))
             (Some (latest_goal_tree_node l)) = Ok path
      else path = [])).
Proof.
  unfold plan. cbn [reset add_node empty_graph nodes edges app length
                    start_tree goal_tree latest_path options].
  intros H.
  destruct (check_collisions_at_state E q_start) eqn:Hs.
  { left. injection H as <- <-. auto. }
  destruct (check_collisions_at_state E q_goal) eqn:Hg.
  { left. injection H as <- <-. auto. }
  right. split; [reflexivity|]. split; [reflexivity|].
  bind_step H l Hl. exists l.
  destruct (goal_found l) eqn:Hfound.
  - bind_step H path Hpath. injection H as <- <-. exists path. auto.
  - injection H as <- <-. exists []. auto.
Qed.

Lemma plan_loop_ok fuel (q_start q_goal : config) opts
    (draws : list (@draw E)) (l : @locals E) (found : bool) :
  check_collisions_at_state E q_start = false ->
  check_collisions_at_state E q_goal = false ->
  plan_loop fuel q_start q_goal opts draws
    (mkLocals (mkGraph [root q_start] []) (mkGraph [root q_goal] [])
       found 0 0 true) = Ok l ->
  locals_ok q_start q_goal l.
Proof.
  intros Hs Hg H.
  eapply (plan_loop_invariant (locals_ok q_start q_goal)); [| |exact H].
  - intros d l1 l2 Hok _ Hround. exact (plan_round_ok _ _ _ _ _ _ _ Hok Hround).
  - assert (Hfree : forall q0 : config,
              check_collisions_at_state E q0 = false ->
              all_free (mkGraph [root q0] [])).
    { intros q0 Hq0 i n Hi. cbn [nodes] in Hi.
      now apply list_lookup_singleton_Some in Hi as [_ <-]. }
    unfold locals_ok. cbn [l_start_tree l_goal_tree latest_start_tree_node
                           latest_goal_tree_node nodes length].
    split; [apply tree_shaped_root|]. split; [apply tree_shaped_root|].
    split; [now apply Hfree|]. split; [now apply Hfree|]. split; lia.
Qed.

(** X3. Whenever [plan] returns, each of its two trees is a tree grown
    from its root: the root ([q_start], respectively [q_goal], without
    parent, at cost 0) is the first node, every other node hangs from an
    older node by an edge of the graph, the edges are exactly these and
    cost the distance between their ends (one edge less than nodes), and
    every node stores the cost of its path to the root. *)
Theorem plan_trees_shaped (self self' : @RRTPlanner E) fuel
    (draws : list (@draw E)) (q_start q_goal : config) opts
    (res : option (list config)) :
  plan self fuel draws q_start q_goal opts = Ok (res, self') ->
  tree_shaped q_start (start_tree self') /\
  tree_shaped q_goal (goal_tree self').
Proof.
  intros H. apply plan_cases in H
    as [(_ & _ & ->)|(Hs & Hg & l & path & Hloop & _ & -> & _)].
  - split; apply tree_shaped_root.
  - apply plan_loop_ok in Hloop as (H1 & H2 & _); auto.
Qed.

(** *** Walks to the root *)

Lemma chain_of_nodes tree (cur : option nat) (chain : list config) :
  chain_of tree cur chain ->
  Forall (fun c => exists i n, nodes tree !! i = Some n /\ q n = c) chain.
Proof.
  induction 1 as [|i n rest Hn _ IH]; constructor; eauto.
Qed.

Lemma chain_of_last (root_q : config) tree (i : nat)
    (chain : list config) :
  tree_shaped root_q tree ->
  chain_of tree (Some i) chain ->
  last chain = Some root_q.
Proof.
  intros (Hroot & Hnodes & _) H.
  remember (Some i) as cur eqn:Hcur. revert i Hcur.
  induction H as [|j n rest Hn Hrest IH]; intros i Hcur; [discriminate|].
  specialize (Hnodes j n Hn). destruct (parent n) as [p|] eqn:Hp.
  - specialize (IH p eq_refl). destruct rest as [|c rest]; [discriminate|].
    now rewrite last_cons_cons.
  - subst j. rewrite Hroot in Hn. injection Hn as <-.
    inversion Hrest. reflexivity.
Qed.

Lemma chain_of_head tree (i : nat) n (chain : list config) :
  nodes tree !! i = Some n ->
  chain_of tree (Some i) chain ->
  exists rest, chain = q n :: rest.
Proof.
  intros Hn H. inversion H as [|j n' rest Hn' _]; subst.
  rewrite Hn in Hn'. injection Hn' as <-. eauto.
Qed.

Lemma chain_of_singleton (q0 : config) (i : nat) (chain : list config) :
  chain_of (mkGraph [root q0] []) (Some i) chain -> chain = [q0].
Proof.
  intros H. inversion H as [|j n rest Hn Hrest Hj Hchain].
  cbn [nodes] in Hn. apply list_lookup_singleton_Some in Hn as [_ <-].
  cbn [parent root] in Hrest. inversion Hrest. reflexivity.
Qed.

(** X4. A path returned by [plan] is empty (the planning time ran out) or
    goes from [q_start] to [q_goal] and has at least two waypoints,
    whatever the options. *)
Theorem plan_path_endpoints (self self' : @RRTPlanner E) fuel
    (draws : list (@draw E)) (q_start q_goal : config) opts
    (path : list config) :
  plan self fuel draws q_start q_goal opts = Ok (Some path, self') ->
  path = [] \/
  (head path = Some q_start /\ last path = Some q_goal /\
   2 <= length path).
Proof.
  intros H. apply plan_cases in H
    as [(_ & [=] & _)|(Hs & Hg & l & path' & Hloop & [= <-] & _ & Hpath)].
  apply plan_loop_ok in Hloop as (H1 & H2 & _ & _ & Hls & Hlg); auto.
  destruct (goal_found l); [right|now left].
  apply extract_path_from_trees_chains in Hpath
    as (up & down & Hup & Hdown & ->).
  pose proof (chain_of_last _ _ _ _ H1 Hup) as Hlast_up.
  pose proof (chain_of_last _ _ _ _ H2 Hdown) as Hlast_down.
  destruct up as [|c up]; [discriminate|].
  destruct down as [|c' down]; [discriminate|].
  split; [|split].
  - rewrite <- (rev_involutive (c :: up)) in Hlast_up.
    destruct (rev (c :: up)) as [|x xs] eqn:Hrev.
    + apply (f_equal (@length _)) in Hrev. rewrite length_rev in Hrev.
      discriminate.
    + cbn [rev] in Hlast_up. rewrite last_snoc in Hlast_up.
      now injection Hlast_up as ->.
  - now rewrite last_app, Hlast_down.
  - rewrite length_app, length_rev. cbn [length]. lia.
Qed.

(** X5. Every waypoint of a path returned by [plan] is collision-free, and
    so is every node of the two trees, whatever the options. *)
Theorem plan_waypoints_free (self self' : @RRTPlanner E) fuel
    (draws : list (@draw E)) (q_start q_goal : config) opts
    (path : list config) :
  plan self fuel draws q_start q_goal opts = Ok (Some path, self') ->
  Forall (fun c => check_collisions_at_state E c = false) path /\
  all_free (start_tree self') /\ all_free (goal_tree self').
Proof.
  intros H. apply plan_cases in H
    as [(_ & [=] & _)|(Hs & Hg & l & path' & Hloop & [= <-] & -> & Hpath)].
  apply plan_loop_ok in Hloop as (_ & _ & Hfs & Hfg & _); auto.
  split; [|now split]. destruct (goal_found l); [|subst; constructor].
  apply extract_path_from_trees_chains in Hpath
    as (up & down & Hup & Hdown & ->).
  apply chain_of_nodes in Hup, Hdown.
  apply Forall_app. split.
  - apply Forall_rev. eapply Forall_impl; [exact Hup|].
    intros c (i & n & Hn & <-). now apply (Hfs i n).
  - eapply Forall_impl; [exact Hdown|].
    intros c (i & n & Hn & <-). now apply (Hfg i n).
Qed.

(** ** Rounds of the planning loop *)

(** X6. A round of the planning loop leaves the tree that is not being
    grown exactly as it was, and adds at most two nodes, at the end, to the
    tree being grown (the new node and, on a bridge, a copy of the other
    tree's nearest node). *)
Theorem plan_round_growth fuel (q_start q_goal : config) options
    (d : @draw E) (l l' : @locals E) :
  plan_round fuel q_start q_goal options d l = Ok l' ->
  (if start_tree_phase l
   then l_goal_tree l' = l_goal_tree l
   else l_start_tree l' = l_start_tree l) /\
  exists added,
    nodes (if start_tree_phase l then l_start_tree l' else l_goal_tree l') =
      nodes (if start_tree_phase l then l_start_tree l else l_goal_tree l)
        ++ added /\
    length added <= 2.
Proof.
  intros H. apply plan_round_inv in H. destruct H as (nearest & res & _ & H).
  destruct res as [q_new|].
  2:{ subst l'. split; [now destruct (start_tree_phase l)|].
      exists []. split; [now rewrite app_nil_r|cbn; lia]. }
  destruct H as (tree1 & new1 & m & other_n & Hadd & _ & _ & H).
  apply add_node_to_tree_shape in Hadd as (_ & st1 & _ & _ & _ & Hnodes1).
  destruct (path_in_collision options q_new (q other_n)).
  - subst l'. cbn [l_start_tree l_goal_tree].
    split; [now destruct (start_tree_phase l)|].
    eexists [_]. split; [|cbn; lia].
    destruct (start_tree_phase l); exact Hnodes1.
  - destruct H as (tree2 & new2 & Hadd2 & ->).
    apply add_node_to_tree_shape in Hadd2 as (_ & st2 & _ & _ & _ & Hnodes2).
    cbn [l_start_tree l_goal_tree].
    split; [now destruct (start_tree_phase l)|].
    eexists [_; _]. split; [|cbn; lia].
    rewrite Hnodes1, <- app_assoc in Hnodes2.
    destruct (start_tree_phase l); exact Hnodes2.
Qed.

(** ** Growing the start tree only *)

Lemma plan_round_unidirectional fuel (q_start q_goal : config) options
    (d : @draw E) (l l' : @locals E) :
  bidirectional_rrt options = false ->
  start_tree_phase l = true ->
  l_goal_tree l = mkGraph [root q_goal] [] ->
  latest_goal_tree_node l = 0 ->
  goal_found l = false ->
  plan_round fuel q_start q_goal options d l = Ok l' ->
  start_tree_phase l' = true /\
  l_goal_tree l' = mkGraph [root q_goal] [] /\
  latest_goal_tree_node l' = 0 /\
  (goal_found l' = true ->
   exists ns,
     nodes (l_start_tree l') !! latest_start_tree_node l' = Some ns /\
     q ns = q_goal).
Proof.
  intros Hbi Hphase Hgoal Hlatest Hnot H.
  apply plan_round_inv in H. destruct H as (nearest & res & _ & H).
  rewrite Hphase, Hbi in H.
  destruct res as [q_new|].
  { destruct H as (tree1 & new1 & m & other_n & _ & _ & Hother & H).
    rewrite Hgoal in Hother. cbn [nodes] in Hother.
    apply list_lookup_singleton_Some in Hother as [-> <-].
    destruct (path_in_collision options q_new (q (root q_goal))).
    - subst l'. cbn. repeat split; auto. congruence.
    - destruct H as (tree2 & new2 & Hadd2 & ->).
      apply add_node_to_tree_shape in Hadd2
        as (_ & st2 & _ & -> & _ & Hnodes2).
      cbn. repeat split; auto. intros _. eexists.
      rewrite Hnodes2, lookup_last. split; reflexivity. }
  subst l'. repeat split; auto. congruence.
Qed.

(** X7. Without [bidirectional_rrt] the goal tree never grows: whenever
    [plan] returns, the goal tree holds the goal node and nothing else; and
    a non-empty path found when the direct segment is in collision ends
    with [q_goal] twice, the copy bridged into the start tree and the goal
    node itself. *)
Theorem plan_unidirectional (self self' : @RRTPlanner E) fuel
    (draws : list (@draw E)) (q_start q_goal : config) opts
    (res : option (list config)) :
  bidirectional_rrt opts = false ->
  plan self fuel draws q_start q_goal opts = Ok (res, self') ->
  goal_tree self' = mkGraph [root q_goal] [] /\
  (forall path, res = Some path -> path <> [] ->
     path_in_collision opts q_start q_goal = true ->
     exists before, path = before ++ [q_goal; q_goal]).
Proof.
  intros Hbi H. apply plan_cases in H
    as [(_ & -> & ->)|(Hs & Hg & l & path & Hloop & -> & -> & Hpath)].
  { split; [reflexivity|]. discriminate. }
  cbn [goal_tree].
  pose (P := fun l : @locals E =>
    start_tree_phase l = true /\
    l_goal_tree l = mkGraph [root q_goal] [] /\
    latest_goal_tree_node l = 0 /\
    (goal_found l = true -> path_in_collision opts q_start q_goal = true ->
     exists ns,
       nodes (l_start_tree l) !! latest_start_tree_node l = Some ns /\
       q ns = q_goal)).
  assert (HP : P l).
  { eapply (plan_loop_invariant P); [| |exact Hloop].
    - intros d l1 l2 (H1 & H2 & H3 & _) Hnot Hround.
      destruct (plan_round_unidirectional _ _ _ _ _ _ _ Hbi H1 H2 H3 Hnot
                  Hround) as (H1' & H2' & H3' & H4').
      repeat split; auto.
    - repeat split; auto. cbn. intros Hfound Hdirect.
      rewrite Hdirect in Hfound. discriminate. }
  destruct HP as (_ & Hgoal & Hlatest & Hbridge).
  split; [exact Hgoal|]. intros path' [= <-] Hne Hdirect.
  destruct (goal_found l); [|congruence].
  destruct (Hbridge eq_refl Hdirect) as (ns & Hns & Hq).
  apply extract_path_from_trees_chains in Hpath
    as (up & down & Hup & Hdown & ->).
  destruct (chain_of_head _ _ _ _ Hns Hup) as [rest ->].
  rewrite Hgoal in Hdown. apply chain_of_singleton in Hdown as ->.
  exists (rev rest). cbn [rev]. rewrite Hq. now rewrite <- app_assoc.
Qed.

(** ** Running out of time, and returning at all *)

(** X8. When both ends are collision-free, the direct segment is not, and
    the clock is already past [max_planning_time] at the first check,
    [plan] returns the empty list (not [None]), stores it in [latest_path],
    and has grown neither tree. *)
Theorem plan_timeout_at_once (self : @RRTPlanner E) fuel (d : @draw E)
    (draws : list (@draw E)) (q_start q_goal : config) opts :
  check_collisions_at_state E q_start = false ->
  check_collisions_at_state E q_goal = false ->
  path_in_collision opts q_start q_goal = true ->
  rlt E (max_planning_time opts) (elapsed d) = true ->
  plan self fuel (d :: draws) q_start q_goal opts =
    Ok (Some [],
        mkPlanner (Some []) (mkGraph [root q_start] [])
          (mkGraph [root q_goal] []) (Some opts)).
Proof.
  intros Hs Hg Hdirect Hlate. unfold plan.
  cbn [reset add_node empty_graph nodes edges app length
       start_tree goal_tree latest_path options].
  rewrite Hs, Hg, Hdirect. cbn [negb plan_loop goal_found].
  rewrite Hlate. reflexivity.
Qed.

Lemma walk_parents_total (root_q : config) tree (i fuel : nat)
    (acc : list config) :
  tree_shaped root_q tree ->
  i < length (nodes tree) ->
  i + 2 <= fuel ->
  exists r, walk_parents fuel tree (Some i) acc = Ok r.
Proof.
  intros (_ & Hnodes & _) Hi. revert fuel acc Hi.
  induction i as [i IH] using lt_wf_ind. intros fuel acc Hi Hfuel.
  destruct fuel as [|fuel]; [lia|]. cbn [walk_parents].
  destruct (lookup_lt_is_Some_2 _ _ Hi) as [n Hn].
  unfold get_node. rewrite Hn. cbn [of_option bind].
  specialize (Hnodes i n Hn). destruct (parent n) as [p|].
  - destruct Hnodes as (Hp & pn & Hpn & _).
    apply IH; [exact Hp|now apply lookup_lt_Some in Hpn|lia].
  - destruct fuel as [|fuel]; [lia|]. now eexists.
Qed.

Lemma extract_path_total (q_start q_goal : config) (l : @locals E) :
  locals_ok q_start q_goal l ->
  exists path,
    extract_path_from_trees (l_start_tree l) (l_goal_tree l)
      (Some (latest_start_tree_node l)) (Some (latest_goal_tree_node l))
    = Ok path.
Proof.
  intros (Hs & Hg & _ & _ & Hls & Hlg). unfold extract_path_from_trees.
  destruct (walk_parents_total _ _ _ (S (length (nodes (l_start_tree l)))) []
              Hs Hls) as [up Hup]; [lia|].
  rewrite Hup. cbn [bind].
  apply (walk_parents_total _ _ _ _ _ Hg Hlg). lia.
Qed.

Lemma get_nearest_node_total (root_q : config) tree (q_query : config) :
  tree_shaped root_q tree ->
  exists i n, get_nearest_node tree q_query = Some i /\
              nodes tree !! i = Some n.
Proof.
  intros (Hroot & _).
  destruct (get_nearest_node tree q_query) as [i|] eqn:Hnear.
  - destruct (get_nearest_node_Some _ _ _ Hnear) as [n Hn]. eauto.
  - unfold get_nearest_node in Hnear.
    destruct (nodes tree); [discriminate Hroot|discriminate Hnear].
Qed.

Section Returning.
Variable opts : @RRTPlannerOptions E.
Hypothesis division_answers : forall (a : config) (s : real),
  vdiv E a s <> None.
Hypothesis single_step : rrt_connect opts = false.

Lemma plan_round_total fuel (q_start q_goal : config) (d : @draw E)
    (l : @locals E) :
  locals_ok q_start q_goal l ->
  exists l', plan_round (S fuel) q_start q_goal opts d l = Ok l'.
Proof.
  intros (Hs & Hg & _).
  assert (Hactive : tree_shaped (if start_tree_phase l then q_start
                                 else q_goal)
                      (if start_tree_phase l then l_start_tree l
                       else l_goal_tree l))
    by (destruct (start_tree_phase l); assumption).
  assert (Hpassive : tree_shaped (if start_tree_phase l then q_goal
                                  else q_start)
                       (if start_tree_phase l then l_goal_tree l
                        else l_start_tree l))
    by (destruct (start_tree_phase l); assumption).
  unfold plan_round, round_extension.
  set (q_sample := round_sample q_start q_goal opts d (start_tree_phase l)).
  destruct (get_nearest_node_total _ _ q_sample Hactive)
    as (nearest & nn & -> & Hnn).
  cbn [of_option bind]. unfold get_node at 1. rewrite Hnn.
  cbn [of_option bind]. unfold extend_or_connect.
  destruct (vdiv E _ _) as [inc|] eqn:Hdiv;
    [|now apply division_answers in Hdiv].
  cbn [of_option bind]. rewrite extend_loop_single by exact single_step.
  cbn [bind]. destruct (validated opts (q nn) _); [|now eexists].
  set (q_new := proposal opts q_sample inc (q nn)).
  rewrite (add_node_to_tree_eq _ q_new _ opts _ Hnn). cbn [bind].
  destruct (inserted opts _ q_new nearest nn) as [[es1 e1] c1].
  cbn [rewired fst]. unfold get_node at 1. cbn [nodes].
  rewrite lookup_last. cbn [of_option bind q].
  destruct (get_nearest_node_total _ _ q_new Hpassive)
    as (m & other_n & -> & Hother).
  cbn [of_option bind]. unfold get_node at 1. rewrite Hother.
  cbn [of_option bind].
  destruct (path_in_collision opts q_new (q other_n)); cbn [negb bind];
    [now eexists|].
  erewrite add_node_to_tree_eq by (cbn [nodes]; apply lookup_last).
  cbn [bind]. destruct (start_tree_phase l); now eexists.
Qed.

Lemma plan_loop_total fuel (q_start q_goal : config)
    (draws : list (@draw E)) (l : @locals E) :
  locals_ok q_start q_goal l ->
  Exists (fun d => rlt E (max_planning_time opts) (elapsed d) = true) draws ->
  exists l', plan_loop (S fuel) q_start q_goal opts draws l = Ok l'.
Proof.
  intros Hok Hlate. revert l Hok.
  induction Hlate as [d draws Hd|d draws _ IH]; intros l Hok;
    cbn [plan_loop]; (destruct (goal_found l); [now eexists|]).
  - rewrite Hd. now eexists.
  - destruct (rlt E _ _); [now eexists|].
    destruct (plan_round_total fuel q_start q_goal d l Hok) as [l1 Hl1].
    rewrite Hl1. cbn [bind]. apply IH.
    exact (plan_round_ok _ _ _ _ _ _ _ Hok Hl1).
Qed.

(** X9. [plan] returns normally (a path, the empty list or [None]) in the
    following case: the array division answers for every input,
    [rrt_connect] is off, and one of the clock readings is past
    [max_planning_time].  In particular no nearest-node query comes back
    empty and no walk to a root fails to end. *)
Theorem plan_returns (self : @RRTPlanner E) fuel (draws : list (@draw E))
    (q_start q_goal : config) :
  Exists (fun d => rlt E (max_planning_time opts) (elapsed d) = true) draws ->
  exists res self',
    plan self (S fuel) draws q_start q_goal opts = Ok (res, self').
Proof.
  intros Hlate. unfold plan.
  cbn [reset add_node empty_graph nodes edges app length
       start_tree goal_tree latest_path options].
  destruct (check_collisions_at_state E q_start) eqn:Hs; [now eexists _, _|].
  destruct (check_collisions_at_state E q_goal) eqn:Hg; [now eexists _, _|].
  set (l0 := mkLocals _ _ _ _ _ _).
  assert (Hok0 : locals_ok q_start q_goal l0).
  { assert (Hfree : forall q0 : config,
              check_collisions_at_state E q0 = false ->
              all_free (mkGraph [root q0] [])).
    { intros q0 Hq0 i n Hi. cbn [nodes] in Hi.
      now apply list_lookup_singleton_Some in Hi as [_ <-]. }
    unfold locals_ok, l0.
    cbn [l_start_tree l_goal_tree latest_start_tree_node
         latest_goal_tree_node nodes length].
    split; [apply tree_shaped_root|]. split; [apply tree_shaped_root|].
    split; [now apply Hfree|]. split; [now apply Hfree|]. split; lia. }
  destruct (plan_loop_total fuel q_start q_goal draws l0 Hok0 Hlate)
    as [l Hl].
  rewrite Hl. cbn [bind].
  assert (Hok : locals_ok q_start q_goal l).
  { eapply (plan_loop_invariant (locals_ok q_start q_goal)); [| |exact Hl].
    - intros d l1 l2 Hok1 _ Hround.
      exact (plan_round_ok _ _ _ _ _ _ _ Hok1 Hround).
    - exact Hok0. }
  destruct (goal_found l); [|now eexists _, _].
  destruct (extract_path_total _ _ _ Hok) as [path Hpath].
  rewrite Hpath. cbn [bind]. now eexists _, _.
Qed.

End Returning.

(** ** A sample on a node of the tree *)

Lemma plan_round_continues fuel (q_start q_goal : config) options
    (d : @draw E) (l : @locals E) (nearest : nat) (res : option config) :
  locals_ok q_start q_goal l ->
  round_extension fuel q_start q_goal options d l = Ok (nearest, res) ->
  exists l', plan_round fuel q_start q_goal options d l = Ok l'.
Proof.
  intros (Hs & Hg & _) Hext.
  assert (Hpassive : tree_shaped (if start_tree_phase l then q_goal
                                  else q_start)
                       (if start_tree_phase l then l_goal_tree l
                        else l_start_tree l))
    by (destruct (start_tree_phase l); assumption).
  pose proof Hext as Hinv.
  apply round_extension_inv in Hinv as (nn & Hnn & _).
  unfold plan_round. rewrite Hext. cbn [bind].
  destruct res as [q_new|]; [|now eexists].
  rewrite (add_node_to_tree_eq _ q_new _ options _ Hnn). cbn [bind].
  destruct (inserted options _ q_new nearest nn) as [[es1 e1] c1].
  cbn [rewired fst]. unfold get_node at 1. cbn [nodes].
  rewrite lookup_last. cbn [of_option bind q].
  destruct (get_nearest_node_total _ _ q_new Hpassive)
    as (m & other_n & -> & Hother).
  cbn [of_option bind]. unfold get_node at 1. rewrite Hother.
  cbn [of_option bind].
  destruct (path_in_collision options q_new (q other_n)); cbn [negb bind];
    [now eexists|].
  erewrite add_node_to_tree_eq by (cbn [nodes]; apply lookup_last).
  cbn [bind]. destruct (start_tree_phase l); now eexists.
Qed.


(** ** Showing the path *)

(** X10. What [visualize] shows after [plan]: when [plan] returned [None]
    (an end in collision) the path cannot be shown, [len(None)] raises;
    otherwise it is the concatenation of the discretized segments between
    consecutive waypoints of the returned path, at the [max_angle_step] of
    the options given to [plan], and it is empty for the empty path. *)
Theorem visualize_after_plan (self self' : @RRTPlanner E) fuel
    (draws : list (@draw E)) (q_start q_goal : config) opts
    (res : option (list config)) :
  plan self fuel draws q_start q_goal opts = Ok (res, self') ->
  visualize_q_path self' =
    match res with
    | None => ShowRaises
    | Some path => Shown (discretized_path opts path)
    end.
Proof.
  intros H. apply plan_cases in H
    as [(_ & -> & ->)|(_ & _ & l & path & _ & -> & -> & _)];
    [reflexivity|].
  unfold visualize_q_path. cbn [latest_path options].
  destruct path as [|a [|b path]]; reflexivity.
Qed.

(** ** Rewiring out of reach *)

Lemma fold_rewire_pure_out_of_reach options (old : list (@Node E))
    (q_new : config) (p0 : nat) (others : list nat)
    (st : list Edge * Edge * real) :
  (forall j other, old !! j = Some other -> j <> p0 ->
     rlt E (max_rewire_dist options)
       (configuration_distance E (q other) q_new) = true) ->
  fold_left (rewire_pure options old q_new (length old) p0) others st = st.
Proof.
  intros Hfar. induction others as [|other rest IH]; [reflexivity|].
  cbn [fold_left]. rewrite <- IH at 2. f_equal.
  destruct st as [[es e] c]. unfold rewire_pure, rewire_choice.
  destruct (other =? length old); cbn [orb]; [reflexivity|].
  destruct (other =? p0) eqn:Hpar; cbn [orb]; [reflexivity|].
  apply Nat.eqb_neq in Hpar.
  destruct (old !! other) as [on|] eqn:Hon; [|reflexivity].
  now rewrite (Hfar other on Hon Hpar).
Qed.

(** X11. When every node of the tree other than the parent is farther than
    [max_rewire_dist] from the new configuration, [add_node_to_tree] with
    [rrt_star] does what it does without: the node is inserted below the
    parent asked for and nothing is rewired. *)
Theorem add_node_to_tree_out_of_reach tree (q_new : config)
    (parent_node : nat) options options' :
  rrt_star options' = false ->
  (forall j other, nodes tree !! j = Some other -> j <> parent_node ->
     rlt E (max_rewire_dist options)
       (configuration_distance E (q other) q_new) = true) ->
  add_node_to_tree tree q_new parent_node options =
  add_node_to_tree tree q_new parent_node options'.
Proof.
  intros Hoff Hfar. destruct (nodes tree !! parent_node) as [pn|] eqn:Hp.
  - assert (Hsame : inserted options tree q_new parent_node pn =
                     inserted options' tree q_new parent_node pn).
    { unfold inserted. rewrite Hoff. cbv zeta.
      destruct (rrt_star options); [|reflexivity].
      now apply fold_rewire_pure_out_of_reach. }
    now rewrite !(add_node_to_tree_eq _ _ _ _ _ Hp), Hsame.
  - unfold add_node_to_tree, insert_node, get_node. now rewrite Hp.
Qed.

End Coverage.

(** * The planner at work on the grid *)

Section GridOracle.
Import Grid.

(** The grid's discretizer visits the same points in both directions. *)
Lemma grid_point_sym (a b m k : Z) :
  m <> 0%Z -> (b + (m - k) * (a - b) / m = a + k * (b - a) / m)%Z.
Proof.
  intros Hm. replace ((m - k) * (a - b))%Z with ((a - b) * m + k * (b - a))%Z
    by ring.
  rewrite Z.div_add_l by exact Hm. ring.
Qed.

Lemma grid_steps_zero (d step : Z) :
  (0 < step)%Z -> Z.to_nat ((Z.abs d + step - 1) / step) = 0 -> d = 0%Z.
Proof.
  intros Hstep H.
  destruct (Z.eq_dec d 0%Z) as [|Hd]; [assumption|exfalso].
  assert (1 <= (Z.abs d + step - 1) / step)%Z; [|lia].
  apply Z.div_le_lower_bound; lia.
Qed.

Lemma grid_discretize_sym (P : Z -> bool) (a b step : Z) :
  (0 < step)%Z ->
  existsb P (discretize a b step) = false ->
  existsb P (discretize b a step) = false.
Proof.
  intros Hstep H. apply not_true_is_false. intros Hrev.
  apply not_true_iff_false in H. apply H. clear H.
  apply existsb_exists in Hrev as (x & Hin & Hx).
  apply existsb_exists. exists x. split; [|exact Hx].
  unfold discretize in *. cbv zeta in *.
  replace (Z.abs (a - b)) with (Z.abs (b - a)) in Hin by lia.
  remember (Z.to_nat ((Z.abs (b - a) + step - 1) / step)) as steps
    eqn:Hsteps.
  apply in_map_iff in Hin as (k & <- & Hk). apply in_seq in Hk.
  apply in_map_iff. exists (steps - k). split; [|apply in_seq; lia].
  destruct steps as [|m].
  - symmetry in Hsteps. apply grid_steps_zero in Hsteps; [|exact Hstep].
    assert (k = 0) as -> by lia. cbn. rewrite !Z.div_0_r. lia.
  - replace (Z.of_nat (S m + 1) - 1)%Z with (Z.of_nat (S m)) by lia.
    rewrite <- (grid_point_sym b a (Z.of_nat (S m)) (Z.of_nat k)) by lia.
    f_equal. f_equal. f_equal. lia.
Qed.

Lemma grid_discretize_point (a step : Z) :
  (0 < step)%Z -> discretize a a step = [a].
Proof.
  intros Hstep. unfold discretize. rewrite Z.sub_diag.
  replace ((Z.abs 0 + step - 1) / step)%Z with 0%Z
    by (symmetry; apply Z.div_small; lia).
  change (Z.to_nat 0 + 1) with 1. cbn [seq map]. f_equal.
  change ((Z.of_nat 0 * 0) / (Z.of_nat 1 - 1))%Z with 0%Z. lia.
Qed.

Lemma grid_segment_sym (obstacles : list Z) (c b s : bool)
    (x y : Z) :
  segment_free (opts obstacles c b s) x y ->
  segment_free (opts obstacles c b s) y x.
Proof.
  unfold segment_free, path_in_collision. cbn. now apply grid_discretize_sym.
Qed.

Lemma grid_segment_point (obstacles : list Z) (c b s : bool)
    (x : Z) :
  check_collisions_at_state (env obstacles) x = false ->
  segment_free (opts obstacles c b s) x x.
Proof.
  unfold segment_free, path_in_collision. cbn. intros Hx.
  rewrite grid_discretize_point by lia. cbn. now rewrite Hx.
Qed.

End GridOracle.

Section GridRuns.
Import Grid.

(** C1 on the grid: the start configuration is the obstacle. *)
Lemma plan_start_in_collision_on_grid :
  plan (fresh [0%Z]) 1 [draws_state [0%Z] 30%Z] 0%Z 30%Z
    (opts [0%Z] false false false) =
  Ok (None,
      mkPlanner None
        (mkGraph [root (E := env [0%Z]) 0%Z] [])
        (mkGraph [root (E := env [0%Z]) 30%Z] [])
        (Some (opts [0%Z] false false false))).
Proof. apply plan_endpoint_in_collision. left. reflexivity. Defined.

(** C6 on the grid: the obstacle at 7 is not on the discretized segment
    from 0 to 30. *)
Lemma plan_direct_connection_on_grid :
  exists path,
    plan (fresh [7%Z]) 1 [] 0%Z 30%Z (opts [7%Z] false false false)
    = Ok (Some path,
          mkPlanner (Some path)
            (mkGraph [root (E := env [7%Z]) 0%Z] [])
            (mkGraph [root (E := env [7%Z]) 30%Z] [])
            (Some (opts [7%Z] false false false))) /\
    path = [0%Z; 30%Z] /\
    head path = Some 0%Z /\ last path = Some 30%Z.
Proof.
  apply (plan_direct_connection (E := env [7%Z])); reflexivity.
Defined.

(** C2, the claim as stated fails: growing both trees, from 0 to 30 with
    obstacles at 15 and 10, a round whose random state is 10 extends
    nothing, and the start tree is still the active one after it. *)
Lemma plan_round_blocked_keeps_phase :
  bidirectional_rrt (opts [15; 10]%Z false true false) = true /\
  start_tree_phase (initial [15; 10]%Z 0%Z 30%Z) = true /\
  round_extension (E := env [15; 10]%Z) 1 0%Z 30%Z (opts [15; 10]%Z false true false)
    (draws_state [15; 10]%Z 10%Z) (initial [15; 10]%Z 0%Z 30%Z)
  = Ok (0, None) /\
  (start_tree_phase <$>
   to_option (plan_round (E := env [15; 10]%Z) 1 0%Z 30%Z (opts [15; 10]%Z false true false)
     (draws_state [15; 10]%Z 10%Z)
     (initial [15; 10]%Z 0%Z 30%Z))) = Some true.
Proof. repeat split. Qed.

(** C2 on the grid: with obstacles at 15 and 32, from 0 to 45, the random
    state 50 makes the start tree grow by the node 20, and the goal tree is
    the active one afterwards. *)
Lemma plan_round_flips_on_grid :
  round_extension (E := both_ways) 1 0%Z 45%Z both_ways_opts
    (draws_state [15; 32]%Z 50%Z)
    (initial [15; 32]%Z 0%Z 45%Z) = Ok (0, Some 20%Z) /\
  plan_round (E := both_ways) 1 0%Z 45%Z both_ways_opts
    (draws_state [15; 32]%Z 50%Z)
    (initial [15; 32]%Z 0%Z 45%Z) = Ok grown /\
  start_tree_phase grown = false.
Proof.
  split; [reflexivity|]. split; [reflexivity|].
  exact (plan_round_flips_on_extension (E := both_ways) 1 0%Z 45%Z
           both_ways_opts (draws_state [15; 32]%Z 50%Z)
           (initial [15; 32]%Z 0%Z 45%Z) grown 0 (Some 20%Z)
           eq_refl eq_refl eq_refl).
Defined.



Lemma detour_cost_consistent : cost_consistent detour.
Proof.
  intros i n Hi. destruct i as [|[|[|i]]]; cbn in Hi; simplify_eq.
  - now exists 1.
  - now exists 2.
  - now exists 3.
Defined.

(** C4 on the grid: the tree with a detour stays cost-consistent when the
    node 30 is inserted and rewired to the root. *)
Lemma add_node_to_tree_cost_invariant_on_grid :
  add_node_to_tree (E := env []) detour 30%Z 2
    (opts [] false false true) = Ok (detour_rewired, 3) /\
  cost_consistent detour_rewired.
Proof.
  split; [reflexivity|].
  destruct (add_node_to_tree_cost_invariant (E := env []) detour 30%Z 2
              (opts [] false false true)
              (mkNode (E := env []) 20%Z (Some 1) 180%Z)
              detour_cost_consistent eq_refl)
    as (_ & tree1 & new_node & e & new & tree' & _ & _ & _ & _ & Hadd & Hcons).
  change (Ok (detour_rewired, 3) = Ok (tree', new_node)) in Hadd.
  injection Hadd as <- _. exact Hcons.
Defined.

(** C8 on the grid: the root is a better parent for the node 30 than the
    node 20 (cost 30 against 190); the node 100 would give 170, which is
    compared with 30 and not with 190, and is not taken. *)
Lemma add_node_to_tree_rewires_on_grid :
  rewire_spec (opts [] false false true) (nodes detour) 30%Z 3
    (iteration_order detour) (2, 190%Z) = (0, 30%Z) /\
  add_node_to_tree (E := env []) detour 30%Z 2
    (opts [] false false true) = Ok (detour_rewired, 3).
Proof.
  split; [reflexivity|].
  destruct (add_node_to_tree_rewires_as_specified (E := env [])
              (fun a b (H : (a <? b)%Z = true) =>
                 proj2 (Z.ltb_ge b a) (Z.lt_le_incl a b (proj1 (Z.ltb_lt a b) H)))
              (fun a b c (H1 : (a <? b)%Z = true) (H2 : (b <? c)%Z = true) =>
                 proj2 (Z.ltb_lt a c)
                   (Z.lt_trans a b c (proj1 (Z.ltb_lt a b) H1)
                      (proj1 (Z.ltb_lt b c) H2)))
              detour 30%Z 2 (opts [] false false true)
              (mkNode (E := env []) 20%Z (Some 1) 180%Z)
              eq_refl
              ltac:(repeat constructor)
              eq_refl)
    as (final_parent & Hparent & Hadd).
  change (Some (mkNode (E := env []) 0%Z None 0%Z) = Some final_parent)
    in Hparent.
  injection Hparent as <-. exact Hadd.
Defined.

(** C9 on the grid: inserting the node 30 with rewiring leaves the three
    nodes and the two edges of the tree as they were. *)
Lemma add_node_to_tree_frame_on_grid :
  3 = length (nodes detour) /\
  (exists n', nodes detour_rewired = nodes detour ++ [n'] /\ q n' = 30%Z) /\
  (forall i n, nodes detour !! i = Some n ->
     nodes detour_rewired !! i = Some n) /\
  (forall i n, i <> 3 -> nodes detour_rewired !! i = Some n ->
     nodes detour !! i = Some n) /\
  (forall x, x ∈ edges detour -> nodeB x <> 3 -> x ∈ edges detour_rewired) /\
  (forall x, x ∈ edges detour_rewired -> x ∈ edges detour \/ nodeB x = 3).
Proof.
  exact (add_node_to_tree_frame (E := env []) detour 30%Z 2
           (opts [] false false true) detour_rewired 3 eq_refl).
Defined.


Lemma both_ways_run_eq :
  plan (fresh [15; 32]%Z) 1 both_ways_draws 0%Z 45%Z both_ways_opts
  = Ok (Some [0; 20; 20; 25; 45]%Z, both_ways_session).
Proof. reflexivity. Defined.


(** C10 on the grid: in the same run the goal tree bridges to the node 20
    of the start tree, and 20 comes twice in a row in the path. *)
Lemma plan_path_repeats_bridge_on_grid :
  exists before bridge after i j ns ng,
    [0; 20; 20; 25; 45]%Z = before ++ bridge :: bridge :: after /\
    nodes (start_tree both_ways_session) !! i = Some ns /\ q ns = bridge /\
    nodes (goal_tree both_ways_session) !! j = Some ng /\ q ng = bridge /\
    chain_of (start_tree both_ways_session) (Some i)
      (rev (before ++ [bridge])) /\
    chain_of (goal_tree both_ways_session) (Some j) (bridge :: after).
Proof.
  apply (plan_path_repeats_bridge (E := both_ways)
           (fresh [15; 32]%Z) both_ways_session 1 both_ways_draws
           0%Z 45%Z both_ways_opts);
    [reflexivity|exact both_ways_run_eq|discriminate].
Defined.

End GridRuns.

Section GridCoverage.
Import Grid.

Lemma grid_lt_asym (obstacles : list Z) (a b : Z) :
  rlt (env obstacles) a b = true ->
  rlt (env obstacles) b a = false.
Proof. cbn. lia. Qed.

Lemma grid_lt_trans (obstacles : list Z) (a b c : Z) :
  rlt (env obstacles) a b = true ->
  rlt (env obstacles) b c = true ->
  rlt (env obstacles) a c = true.
Proof. cbn. lia. Qed.

Lemma grid_division_answers (obstacles : list Z) (a s : Z) :
  vdiv (env obstacles) a s <> None.
Proof. cbn. unfold divide. now destruct (s =? 0)%Z. Qed.

Lemma one_way_run_eq :
  plan (fresh [15%Z]) 1 [draws_state [15%Z] 30%Z] 0%Z 30%Z
    one_way_opts
  = Ok (Some [0; 20; 30; 30]%Z, one_way_session).
Proof. reflexivity. Defined.

(** X1 on the grid: connecting from 0 towards 50 past the obstacle at 15
    gives 50, which is collision-free. *)
Lemma extend_or_connect_result_on_grid :
  check_collisions_at_state (env [15%Z]) 50%Z = false /\
  (50%Z = 50%Z \/
   exists k, 0 < k /\
     50%Z = Nat.iter k (fun c => vadd (env [15%Z]) c 20%Z) 0%Z).
Proof.
  destruct (extend_or_connect_result (E := env [15%Z]) 3
              (opts [15%Z] true false false)
              (root (E := env [15%Z]) 0%Z) 50%Z
              (opts [15%Z] true false false) 20%Z (Some 50%Z)
              eq_refl eq_refl) as [_ H].
  exact (H 50%Z eq_refl).
Defined.

(** X2 on the grid: in the tree with a detour the node 30 ends below the
    root at cost 30, which neither the node 100 (170) nor the node 20 (190)
    undercuts. *)
Lemma add_node_to_tree_cheapest_parent_on_grid :
  exists tree' new final_parent final,
    add_node_to_tree (E := env []) detour 30%Z 2
      (opts [] false false true) = Ok (tree', 3) /\
    nodes tree' !! 3 = Some new /\
    parent new = Some final_parent /\
    nodes detour !! final_parent = Some final /\
    cost new = cost_through (E := env []) final 30%Z /\
    (cost new = 190%Z \/ rlt (env []) (cost new) 190%Z = true) /\
    (forall j other, nodes detour !! j = Some other ->
       rlt (env []) 1000000%Z
         (configuration_distance (env []) (q other) 30%Z) = false ->
       path_in_collision (opts [] false false true) 30%Z (q other)
         = false ->
       rlt (env []) (cost_through (E := env []) other 30%Z)
         (cost new) = false).
Proof.
  exact (add_node_to_tree_cheapest_parent (E := env [])
           (grid_lt_asym []) (grid_lt_trans [])
           detour 30%Z 2 (opts [] false false true)
           (mkNode (E := env []) 20%Z (Some 1) 180%Z)
           eq_refl eq_refl).
Defined.

(** X3 on the grid: the two trees of the run that grows both. *)
Lemma plan_trees_shaped_on_grid :
  tree_shaped (E := both_ways) 0%Z (start_tree both_ways_session) /\
  tree_shaped (E := both_ways) 45%Z (goal_tree both_ways_session).
Proof.
  exact (plan_trees_shaped (E := both_ways) (fresh [15; 32]%Z)
           both_ways_session 1 both_ways_draws 0%Z 45%Z both_ways_opts
           (Some [0; 20; 20; 25; 45]%Z) both_ways_run_eq).
Defined.

(** X4 on the grid: the path of that run goes from 0 to 45. *)
Lemma plan_path_endpoints_on_grid :
  [0; 20; 20; 25; 45]%Z = [] \/
  (head [0; 20; 20; 25; 45]%Z = Some 0%Z /\
   last [0; 20; 20; 25; 45]%Z = Some 45%Z /\
   2 <= length [0; 20; 20; 25; 45]%Z).
Proof.
  exact (plan_path_endpoints (E := both_ways) (fresh [15; 32]%Z)
           both_ways_session 1 both_ways_draws 0%Z 45%Z both_ways_opts
           [0; 20; 20; 25; 45]%Z both_ways_run_eq).
Defined.

(** X5 on the grid: no waypoint and no node of that run is an obstacle. *)
Lemma plan_waypoints_free_on_grid :
  Forall (fun c => check_collisions_at_state both_ways c = false)
    [0; 20; 20; 25; 45]%Z /\
  all_free (start_tree both_ways_session) /\
  all_free (goal_tree both_ways_session).
Proof.
  exact (plan_waypoints_free (E := both_ways) (fresh [15; 32]%Z)
           both_ways_session 1 both_ways_draws 0%Z 45%Z both_ways_opts
           [0; 20; 20; 25; 45]%Z both_ways_run_eq).
Defined.

(** X6 on the grid: the first round of that run adds the node 20 to the
    start tree and leaves the goal tree alone. *)
Lemma plan_round_growth_on_grid :
  l_goal_tree grown = l_goal_tree (initial [15; 32]%Z 0%Z 45%Z) /\
  exists added,
    nodes (l_start_tree grown) =
      nodes (l_start_tree (initial [15; 32]%Z 0%Z 45%Z)) ++ added /\
    length added <= 2.
Proof.
  exact (plan_round_growth (E := both_ways) 1 0%Z 45%Z both_ways_opts
           (draws_state [15; 32]%Z 50%Z)
           (initial [15; 32]%Z 0%Z 45%Z) grown eq_refl).
Defined.

(** X7 on the grid: growing the start tree only, the goal tree stays the
    goal node and the path ends with 30 twice. *)
Lemma plan_unidirectional_on_grid :
  goal_tree one_way_session = mkGraph [root (E := one_way) 30%Z] [] /\
  (forall path, Some [0; 20; 30; 30]%Z = Some path -> path <> [] ->
     path_in_collision (E := one_way) one_way_opts 0%Z 30%Z = true ->
     exists before, path = before ++ [30; 30]%Z).
Proof.
  exact (plan_unidirectional (E := one_way) (fresh [15%Z])
           one_way_session 1 [draws_state [15%Z] 30%Z] 0%Z 30%Z
           one_way_opts (Some [0; 20; 30; 30]%Z) eq_refl one_way_run_eq).
Defined.

(** X8 on the grid: the first clock reading, 11, is past the deadline. *)
Lemma plan_timeout_at_once_on_grid :
  plan (fresh [15%Z]) 1 [late [15%Z]] 0%Z 30%Z one_way_opts =
  Ok (Some [],
      mkPlanner (Some []) (mkGraph [root (E := one_way) 0%Z] [])
        (mkGraph [root (E := one_way) 30%Z] []) (Some one_way_opts)).
Proof.
  exact (plan_timeout_at_once (E := one_way) (fresh [15%Z]) 1
           (late [15%Z]) [] 0%Z 30%Z one_way_opts
           eq_refl eq_refl eq_refl eq_refl).
Defined.

(** X9 on the grid: a round that extends nothing, then the deadline. *)
Lemma plan_returns_on_grid :
  exists res self',
    plan (fresh [15; 10]%Z) 1
      [draws_state [15; 10]%Z 10%Z; late [15; 10]%Z]
      0%Z 30%Z (opts [15; 10]%Z false true false) = Ok (res, self').
Proof.
  apply (plan_returns (E := env [15; 10]%Z)
           (opts [15; 10]%Z false true false)
           (grid_division_answers [15; 10]%Z) eq_refl).
  apply Exists_cons_tl, Exists_cons_hd. reflexivity.
Defined.

(** X10 on the grid: what is shown of the run that grows both trees. *)
Lemma visualize_after_plan_on_grid :
  visualize_q_path both_ways_session =
  Shown (discretized_path both_ways_opts [0; 20; 20; 25; 45]%Z).
Proof.
  exact (visualize_after_plan (E := both_ways) (fresh [15; 32]%Z)
           both_ways_session 1 both_ways_draws 0%Z 45%Z both_ways_opts
           (Some [0; 20; 20; 25; 45]%Z) both_ways_run_eq).
Defined.

(** X11 on the grid: with a rewiring radius of 5 the root, 30 away, is out
    of reach, and the node 30 stays below the node 20 at cost 190. *)
Lemma add_node_to_tree_out_of_reach_on_grid :
  add_node_to_tree (E := env []) detour 30%Z 2 short_reach =
  Ok (mkGraph (E := env [])
        (nodes detour ++ [mkNode (E := env []) 30%Z (Some 2) 190%Z])
        (edges detour ++ [mkEdge (E := env []) 2 3 10%Z]), 3).
Proof.
  rewrite (add_node_to_tree_out_of_reach (E := env []) detour 30%Z 2
             short_reach (opts [] false false false) eq_refl).
  - reflexivity.
  - intros j other Hj Hne.
    destruct j as [|[|[|j]]]; cbn in Hj; simplify_eq; reflexivity.
Defined.

End GridCoverage.

Section DoublesRuns.

Lemma doubles_initial_ok :
  locals_ok (E := Doubles.env) Doubles.tenth PrimFloat.one Doubles.initial.
Proof.
  unfold locals_ok, Doubles.initial.
  cbn [l_start_tree l_goal_tree latest_start_tree_node latest_goal_tree_node
       nodes length].
  split; [apply tree_shaped_root|]. split; [apply tree_shaped_root|].
  split; [now intros i n _|]. split; [now intros i n _|]. split; lia.
Qed.


End DoublesRuns.
